(** * Auggie MCP server: a shallow embedding of [auggie_mcp_server.py]

    The server exposes two operations, [ask_question] and [implement], that
    drive an external agent binary and the version-control binary.  The
    development has these parts:

    - [Text]: Python [str] values and the string primitives the server uses
      ([strip], [lstrip], [split], [splitlines], [join], [shlex.quote]);
    - [Regex] and [Collector]: the backtracking matcher behind [re.match], the
      status pattern and the loop that collects the changed paths;
    - [Effects]: a state-and-exception monad over an abstract host (process
      table, clock, file system) that keeps a transcript of every interaction;
    - [Server]: the operations themselves, written in that monad in the order
      of the source;
    - [Scripted]: a host that can be run, for the examples;
    - [Transcript]: the vocabulary of the statements;
    - the facts: the matcher, a program logic for the monad, what a
      successful [implement] did, and the properties of the specification. *)

From Stdlib Require Import ZArith NArith List String Ascii Bool Lia.
From Stdlib.Strings Require Import Byte.
From Stdlib Require Import DecimalString.
From stdpp Require Import base option list countable gmap.

Local Open Scope N_scope.

(** ** Python strings *)

(** A Python [str] is a sequence of Unicode code points. *)
Abbreviation str := (list N).

Module Text.

(** [u "..."] is the [str] of an ASCII literal of the source. *)
Fixpoint u (s : string) : str :=
  match s with
  | EmptyString => []
  | String a r => N_of_ascii a :: u r
  end.
#[global] Arguments u : simpl never.

(** [len(s)] *)
Definition len (s : str) : Z := Z.of_nat (length s).

(** [Py_UNICODE_ISSPACE]: the characters removed by [str.strip()] and matched
    by [\s] in a [str] pattern. *)
Definition isspace (c : N) : bool :=
  ((0x09 <=? c) && (c <=? 0x0D)) || ((0x1C <=? c) && (c <=? 0x20))
  || (c =? 0x85) || (c =? 0xA0) || (c =? 0x1680)
  || ((0x2000 <=? c) && (c <=? 0x200A))
  || (c =? 0x2028) || (c =? 0x2029) || (c =? 0x202F) || (c =? 0x205F)
  || (c =? 0x3000).

(** The line boundaries of [str.splitlines()]. *)
Definition is_linebreak (c : N) : bool :=
  ((0x0A <=? c) && (c <=? 0x0D)) || ((0x1C <=? c) && (c <=? 0x1E))
  || (c =? 0x85) || (c =? 0x2028) || (c =? 0x2029).

(** [s.lstrip(chars)] for a predicate on characters. *)
Fixpoint lstrip_by (p : N -> bool) (s : str) : str :=
  match s with
  | [] => []
  | c :: r => if p c then lstrip_by p r else s
  end.

Definition rstrip_by (p : N -> bool) (s : str) : str :=
  rev (lstrip_by p (rev s)).

(** [s.strip()] *)
Definition strip (s : str) : str := rstrip_by isspace (lstrip_by isspace s).

Definition mem_char (chars : str) (c : N) : bool :=
  existsb (N.eqb c) chars.

(** [s.lstrip(chars)] *)
Definition lstrip (chars : str) (s : str) : str := lstrip_by (mem_char chars) s.

(** [s.split(sep)] for a separator of one character; the result always has at
    least one element. *)
Fixpoint split (sep : N) (s : str) : list str :=
  match s with
  | [] => [[]]
  | c :: r =>
      if c =? sep then [] :: split sep r
      else match split sep r with
           | w :: ws => (c :: w) :: ws
           | [] => [[c]]
           end
  end.

(** [s.splitlines()]: [cur] is the line being read, in reverse; [after_cr]
    says that the previous character was a carriage return, so that a line
    feed here belongs to the same boundary. *)
Fixpoint splitlines_from (after_cr : bool) (cur : str) (s : str) : list str :=
  match s with
  | [] => match cur with [] => [] | _ => [rev cur] end
  | c :: r =>
      if after_cr && (c =? 0x0A) then splitlines_from false cur r
      else if is_linebreak c then rev cur :: splitlines_from (c =? 0x0D) [] r
      else splitlines_from false (c :: cur) r
  end.

Definition splitlines (s : str) : list str := splitlines_from false [] s.

(** [sep.join(parts)] *)
Fixpoint join (sep : str) (parts : list str) : str :=
  match parts with
  | [] => []
  | [p] => p
  | p :: ps => p ++ sep ++ join sep ps
  end.

(** [s[:n]] for [n >= 0] *)
Definition slice_to (n : nat) (s : str) : str := firstn n s.

(** [s.replace(old, new)] for [old] of one character. *)
Definition replace_char (old : N) (new : str) (s : str) : str :=
  flat_map (fun c => if c =? old then new else [c]) s.

(** [shlex.quote]: the safe characters are [\w@%+=:,./-] with [re.ASCII]. *)
Definition shlex_safe (c : N) : bool :=
  ((0x30 <=? c) && (c <=? 0x39)) || ((0x41 <=? c) && (c <=? 0x5A))
  || ((0x61 <=? c) && (c <=? 0x7A)) || (c =? 0x5F)
  || mem_char (u "@%+=:,./-") c.

Definition shlex_quote (s : str) : str :=
  match s with
  | [] => u "''"
  | _ =>
      if forallb shlex_safe s then s
      else u "'" ++ replace_char 0x27 [0x27; 0x22; 0x27; 0x22; 0x27] s ++ u "'"
  end.

End Text.

(** ** Regular expressions

    The part of Python's [re] engine that the status pattern needs: a pattern
    is a sequence of nodes, each repetition is greedy over a one-character
    item and gives characters back one at a time when the rest of the pattern
    fails. *)

Module Regex.

Inductive node : Type :=
| AtBeginning                                     (* ^ *)
| AtEnd                                           (* $ *)
| MaxRepeat (lo : nat) (hi : option nat) (cls : N -> bool)
                                                  (* x*, x+, x{lo,hi} *)
| Mark (i : nat).                                 (* a group boundary *)

(** The number of leading characters of [s] in the class, at most [hi]. *)
Fixpoint run_length (cls : N -> bool) (hi : option nat) (s : str) : nat :=
  match hi with
  | Some O => O
  | _ =>
      match s with
      | c :: r =>
          if cls c then S (run_length cls (pred <$> hi) r) else O
      | [] => O
      end
  end.

(** Try [k], [k-1], ..., [lo] repetitions, the longest first. *)
Fixpoint backtrack {R : Type} (cont : nat -> option R) (lo k : nat)
  : option R :=
  if (k <? lo)%nat then None
  else match cont k with
       | Some r => Some r
       | None =>
           match k with
           | O => None
           | S k' => backtrack cont lo k'
           end
       end.

(** [marks] holds the recorded positions, the latest first. *)
Fixpoint match_here (prog : list node) (pos : nat) (rest : str)
    (marks : list (nat * nat)) : option (list (nat * nat)) :=
  match prog with
  | [] => Some marks
  | AtBeginning :: p =>
      match pos with
      | O => match_here p pos rest marks
      | S _ => None
      end
  | AtEnd :: p =>
      match rest with
      | [] => match_here p pos rest marks
      | [c] => if c =? 0x0A then match_here p pos rest marks else None
      | _ => None
      end
  | Mark i :: p => match_here p pos rest ((i, pos) :: marks)
  | MaxRepeat lo hi cls :: p =>
      backtrack
        (fun k => match_here p (pos + k)%nat (skipn k rest) marks)
        lo (run_length cls hi rest)
  end.

Fixpoint mark_pos (i : nat) (marks : list (nat * nat)) : option nat :=
  match marks with
  | [] => None
  | (j, p) :: r => if (i =? j)%nat then Some p else mark_pos i r
  end.

(** [re.match(prog, s)]: the marks of the first match found at position 0. *)
Definition re_match (prog : list node) (s : str) : option (list (nat * nat)) :=
  match_here prog 0 s [].

(** [m.group(g)] for a group that took part in the match. *)
Definition group (g : nat) (s : str) (marks : list (nat * nat)) : option str :=
  match mark_pos (2 * (g - 1))%nat marks,
        mark_pos (2 * (g - 1) + 1)%nat marks with
  | Some a, Some b => Some (firstn (b - a)%nat (skipn a s))
  | _, _ => None
  end.

End Regex.

(** ** The change collector *)

Module Collector.
Import Text Regex.

Definition status_code_char (c : N) : bool := Text.mem_char (u "AMDR?") c.

(** [.] without [re.DOTALL] *)
Definition any_but_newline (c : N) : bool := negb (c =? 0x0A).

(** The pattern of the source, node by node: [^], [\s*], [[AMDR?]{1,2}],
    [\s+], group 1 around a greedy run of [.], and [$]. *)
Definition status_pattern : list node :=
  [ AtBeginning;
    MaxRepeat 0 None isspace;
    MaxRepeat 1 (Some 2%nat) status_code_char;
    MaxRepeat 1 None isspace;
    Mark 0; MaxRepeat 0 None any_but_newline; Mark 1;
    AtEnd ].

(** [m = re.match(pattern, line)] followed by [m.group(1)] when [m] is not
    [None]. *)
Definition status_line_path (line : str) : option str :=
  marks ← re_match status_pattern line; group 1 line marks.
#[global] Arguments status_line_path : simpl never.

(** The loop over [status.splitlines()], appending to [files_changed]. *)
Definition collect_step (files_changed : list str) (line : str) : list str :=
  match status_line_path line with
  | Some path => files_changed ++ [path]
  | None => files_changed
  end.

Definition collect_files (status : str) : list str :=
  fold_left collect_step (splitlines status) [].

End Collector.

(** ** Effects

    Everything outside the interpreter is a [Host]: the process table, the
    clock, the file system, and the library functions whose tables are too
    large to write out ([bytes.decode], [int] on arbitrary Unicode digits,
    [pathlib]).  A program is a function from the state to a result and a new
    state; the state carries [os.environ] and the transcript of what the
    program did to the host and what the host answered.

    A state is the state of one call: a program runs from its first step to
    its last with no other call of the server taking a turn while it waits
    for a process, so [os.environ] changes only where the program itself
    assigns it.  What calls that run at the same time do to each other
    through [os.environ] is outside this model, and the statements about
    the environment are statements about a call that runs alone. *)

Module Effects.

(** The exceptions the server can meet.  [SystemExit] is the only one that is
    not a subclass of [Exception]. *)
Inductive exn : Type :=
| OSError (msg : str)
| TimeoutError
| AssertionError (msg : str)
| ValueError (msg : str)
| RuntimeError (msg : str)
| SystemExit (code : Z).

Definition is_Exception (e : exn) : bool :=
  match e with
  | SystemExit _ => false
  | _ => true
  end.

(** [str(e)] *)
Definition exn_str (e : exn) : str :=
  match e with
  | OSError msg | AssertionError msg | ValueError msg | RuntimeError msg => msg
  | TimeoutError => []
  | SystemExit code => Text.u (NilZero.string_of_int (Z.to_int code))
  end.

(** What a call into the operating system raises when it fails: an
    [OSError] (no such file, no permission, ...), or the [ValueError] of an
    argument the call cannot take, such as a string that holds U+0000
    ([embedded null byte]). *)
Inductive lib_error : Type :=
| OSFailure (msg : str)
| BadValue (msg : str).

Definition lib_exn (e : lib_error) : exn :=
  match e with
  | OSFailure msg => OSError msg
  | BadValue msg => ValueError msg
  end.

(** What became of a process started by [_run]. *)
Inductive proc_result : Type :=
| SpawnFailed (e : lib_error)    (* create_subprocess_exec raised *)
| Exited (returncode : Z) (out err : list Byte.byte)
| TimedOut.                      (* communicate() outlived the timeout *)

(** The values [json.dumps] is applied to. *)
#[warnings="-register-all"]
Inductive json : Type :=
| JString (s : str)
| JList (l : list json)
| JDict (l : list (str * json)).

Inductive event : Type :=
| EvExec (cmd : list str) (cwd : option str) (env : gmap str str)
         (timeout : Z) (r : proc_result)
| EvKill (cmd : list str) (failed : option str)  (* proc.kill() *)
| EvInfo (msg : str)                       (* ctx.info *)
| EvStderr (line : str)                    (* print(..., file=sys.stderr) *)
| EvMkdir (path : str)
| EvWriteText (path : str) (data : json).  (* the text is json.dumps(data) *)

Class Host : Type := {
  World : Type;
  Instant : Type;
  (** [int((t1 - t0) * 1000)] on two readings of [time.time()] *)
  elapsed_ms : Instant -> Instant -> Z;
  (** [bytes.decode(errors="replace")] *)
  decode : list Byte.byte -> str;
  (** [int(s)]: the value, or the message of the [ValueError] *)
  py_int : str -> str + Z;
  (** [str(Path(a) / b)] *)
  path_child : str -> str -> str;
  (** starting a process with a command, a working directory, an environment,
      and waiting for it for [timeout] seconds *)
  host_exec :
    list str -> option str -> gmap str str -> Z -> World -> proc_result * World;
  host_time : World -> Instant * World;
  (** [os.getcwd()]: the directory, or the message of the [OSError] *)
  host_getcwd : World -> str + str;
  (** [proc.kill()] after a timeout: [Some msg] is the [ProcessLookupError],
      an [OSError], of a process that has ended in the meantime *)
  host_kill : list str -> World -> option str * World;
  (** [mkdir(parents=True, exist_ok=True)] and [write_text]: [Some e] is the
      error raised *)
  host_mkdir : str -> World -> option lib_error * World;
  host_write_text : str -> json -> World -> option lib_error * World;
}.

Section Monad.
Context `{H : Host}.

Record state : Type := State {
  world : World;
  environ : gmap str str;
  log : list event;
}.

Inductive result (A : Type) : Type :=
| Ok (a : A)
| Raised (e : exn).
#[global] Arguments Ok {A} a.
#[global] Arguments Raised {A} e.

Definition prog (A : Type) : Type := state -> result A * state.

#[global] Instance prog_ret : MRet prog := fun A a σ => (Ok a, σ).

#[global] Instance prog_bind : MBind prog := fun A B f m σ =>
  match m σ with
  | (Ok a, σ') => f a σ'
  | (Raised e, σ') => (Raised e, σ')
  end.

Definition raise {A : Type} (e : exn) : prog A := fun σ => (Raised e, σ).

(** [try: body / except Exception as e: handler e] *)
Definition try_except {A : Type} (body : prog A) (handler : exn -> prog A)
  : prog A := fun σ =>
  match body σ with
  | (Raised e, σ') =>
      if is_Exception e then handler e σ' else (Raised e, σ')
  | r => r
  end.

Definition emit (ev : event) : prog unit := fun σ =>
  (Ok tt, State (world σ) (environ σ) (log σ ++ [ev])).

(** Lifting a host call that changes the world. *)
Definition host_call {A : Type} (f : World -> A * World) : prog A := fun σ =>
  let '(a, w) := f (world σ) in (Ok a, State w (environ σ) (log σ)).

Definition get_environ : prog (gmap str str) := fun σ => (Ok (environ σ), σ).

Definition set_environ (env : gmap str str) : prog unit := fun σ =>
  (Ok tt, State (world σ) env (log σ)).

Definition time_time : prog Instant := host_call host_time.

Definition os_getcwd : prog str := fun σ =>
  match host_getcwd (world σ) with
  | inr d => (Ok d, σ)
  | inl msg => (Raised (OSError msg), σ)
  end.

Definition os_error (r : option lib_error) : prog unit :=
  match r with
  | None => mret tt
  | Some e => raise (lib_exn e)
  end.

Definition path_mkdir (p : str) : prog unit :=
  r ← host_call (host_mkdir p); emit (EvMkdir p);; os_error r.

Definition path_write_text (p : str) (data : json) : prog unit :=
  r ← host_call (host_write_text p data); emit (EvWriteText p data);;
  os_error r.

(** [assert cond, msg] *)
Definition assert (cond : bool) (msg : str) : prog unit :=
  if cond then mret tt else raise (AssertionError msg).

(** [sys.exit(code)] *)
Definition sys_exit {A : Type} (code : Z) : prog A := raise (SystemExit code).

(** [int(s)] *)
Definition int (s : str) : prog Z :=
  match py_int s with
  | inr n => mret n
  | inl msg => raise (ValueError msg)
  end.

End Monad.

End Effects.

(** ** The server *)

Module Server.
Import Text Collector Effects.

Local Open Scope Z_scope.

Definition SERVER_NAME : str := u "Auggie MCP".
Definition DEFAULT_TIMEOUT : Z := 120.

(** Truth value of a [str] or a list.  An [Optional[str]] is true when it is
    [Some] of a non-empty string; the operations test that by cases. *)
Definition nonempty {A : Type} (l : list A) : bool :=
  match l with
  | [] => false
  | _ :: _ => true
  end.

(** [a or b] on strings *)
Definition str_or (a b : str) : str := if nonempty a then a else b.

Record Usage : Type := { duration_ms : Z }.

Record AskResult : Type := {
  answer : str;
  ask_usage : Usage;
}.

Record ImplementResult : Type := {
  summary : str;
  files_changed : list str;
  diff : str;
  committed : bool;
  commit_sha : option str;
  usage : Usage;
}.

Section Operations.
Context `{H : Host}.

(** A copy of [os.environ], or of [base_env] when one is given. *)
Definition _env (base_env : option (gmap str str)) : prog (gmap str str) :=
  match base_env with
  | None => get_environ
  | Some env => mret env
  end.

(** The handler of the timeout calls [proc.kill()] unguarded: when the kill
    raises, its error leaves [_run] in place of the timeout. *)
Definition _run (cmd : list str) (cwd : option str) (timeout : Z)
  : prog (Z * str * str) :=
  env ← _env None;
  r ← host_call (host_exec cmd cwd env timeout);
  emit (EvExec cmd cwd env timeout r);;
  match r with
  | SpawnFailed e => raise (lib_exn e)
  | TimedOut =>
      failed ← host_call (host_kill cmd);
      emit (EvKill cmd failed);;
      match failed with
      | Some msg => raise (OSError msg)
      | None => raise TimeoutError
      end
  | Exited returncode out err => mret (returncode, decode out, decode err)
  end.

Definition _auggie_base_args (instruction : str)
    (workspace_root model rules_path : option str) (quiet : bool)
  : list str :=
  let args := [u "auggie"] in
  let args := args ++ (if quiet then [u "--quiet"] else [u "--print"]) in
  let args :=
    match workspace_root with
    | Some (c :: r) => args ++ [u "--workspace-root"; c :: r]
    | _ => args
    end in
  let args :=
    match model with
    | Some (c :: r) => args ++ [u "--model"; c :: r]
    | _ => args
    end in
  let args :=
    match rules_path with
    | Some (c :: r) => args ++ [u "--rules"; c :: r]
    | _ => args
    end in
  args ++ [instruction].

(** [await ctx.info(f"Running: ...")] when [ctx] is not [None]. *)
Definition announce (ctx : bool) (cmd : list str) : prog unit :=
  if ctx
  then emit (EvInfo (u "Running: " ++ join (u " ") (map shlex_quote cmd)))
  else mret tt.

(** The [assert] statements are those of an interpreter run without [-O]. *)
Definition _preflight : prog unit :=
  try_except
    ('(code, out, _) ← _run [u "node"; u "-v"] None 5;
     assert ((code =? 0) && nonempty (strip out)) [];;
     let ver := split 0x2E%N (lstrip (u "v") (strip out)) in
     major ← int (hd [] ver);
     assert (18 <=? major) (u "Node 18+ required, found v" ++ strip out);;
     '(code, _, _) ← _run [u "auggie"; u "--version"] None 5;
     assert (code =? 0) [])
    (fun e =>
       emit (EvStderr (u "[" ++ SERVER_NAME ++ u "] Preflight failed: "
                       ++ exn_str e));;
       sys_exit 1).

(** The guard that opens both operations. *)
Definition guarded_preflight : prog unit :=
  try_except _preflight
    (fun e => raise (RuntimeError (u "Preflight failed: " ++ exn_str e))).

Definition ask_question (question : str)
    (workspace_root model rules_path : option str) (timeout_sec : Z)
    (ctx : bool) : prog AskResult :=
  guarded_preflight;;
  t0 ← time_time;
  let cmd := _auggie_base_args question workspace_root model rules_path true in
  announce ctx cmd;;
  '(code, out, err) ← _run cmd workspace_root timeout_sec;
  if negb (code =? 0)
  then raise (RuntimeError (u "Auggie failed: "
                            ++ str_or (strip err) (strip out)))
  else
    t1 ← time_time;
    mret {| answer := strip out;
            ask_usage := {| duration_ms := elapsed_ms t0 t1 |} |}.

Definition _git (args : list str) (cwd : str) (timeout : Z) : prog str :=
  '(code, out, err) ← _run (u "git" :: args) (Some cwd) timeout;
  if negb (code =? 0)
  then raise (RuntimeError (u "git " ++ join (u " ") args ++ u " failed: "
                            ++ str_or (strip err) (strip out)))
  else mret out.

(** The default of [_git]'s [timeout] parameter. *)
Definition GIT_TIMEOUT : Z := 60.

Definition deny (tool : string) : json :=
  JDict [(u "tool-name", JString (u tool));
         (u "permission", JDict [(u "type", JString (u "deny"))])].

Definition _read_only_settings (tmp_dir : str) : prog str :=
  let data :=
    JDict [(u "tool-permissions",
            JList [deny "save-file"; deny "str-replace-editor";
                   deny "remove-files"; deny "launch-process"])] in
  let p := path_child tmp_dir (u "settings.json") in
  path_write_text p data;;
  mret p.

Definition implement (prompt : str) (workspace_root branch : option str)
    (commit_message : option str) (scope : option (list str))
    (dry_run : bool) (timeout_sec : Z) (model rules_path : option str)
    (ctx : bool) : prog ImplementResult :=
  guarded_preflight;;
  workspace_root ←
    (match workspace_root with
     | Some (c :: r) => mret (c :: r)
     | _ => os_getcwd
     end);
  t0 ← time_time;
  (match branch with
   | Some (c :: r) =>
       _git [u "checkout"; u "-B"; c :: r] workspace_root GIT_TIMEOUT;;
       mret tt
   | _ => mret tt
   end);;
  let tmp := path_child (path_child workspace_root (u ".augment"))
                        (u ".mcp-temp") in
  path_mkdir tmp;;
  extra_env ← get_environ;
  (if dry_run then
     _read_only_settings tmp;;
     let extra_env := <[u "AUGMENT_CACHE_DIR" := tmp]> extra_env in
     env ← get_environ;
     set_environ (extra_env ∪ env)
   else mret tt);;
  let scope_hint :=
    match scope with
    | Some (s :: r) =>
        [0x0A%N] ++ u "Scope: limit edits to " ++ join (u ", ") (s :: r)
    | _ => []
    end in
  let instruction := strip prompt ++ scope_hint in
  let cmd := _auggie_base_args instruction (Some workspace_root) model
                               rules_path true in
  announce ctx cmd;;
  '(code, out, err) ← _run cmd (Some workspace_root) timeout_sec;
  (if negb (code =? 0)
   then raise (RuntimeError (u "Auggie failed: "
                             ++ str_or (strip err) (strip out)))
   else mret tt);;
  status ← _git [u "status"; u "--porcelain"] workspace_root GIT_TIMEOUT;
  let files_changed := collect_files status in
  diff ←
    (if nonempty files_changed
     then _git [u "diff"] workspace_root GIT_TIMEOUT
     else mret []);
  '(committed, commit_sha) ←
    (if negb dry_run && nonempty files_changed then
       _git [u "add"; u "-A"] workspace_root GIT_TIMEOUT;;
       let commit_message :=
         match commit_message with
         | Some (c :: r) => c :: r
         | _ => u "Implement: " ++ slice_to 72 prompt
         end in
       _git [u "commit"; u "-m"; commit_message] workspace_root GIT_TIMEOUT;;
       sha ← _git [u "rev-parse"; u "HEAD"] workspace_root GIT_TIMEOUT;
       mret (true, Some (strip sha))
     else mret (false, None));
  t1 ← time_time;
  mret {| summary := strip out;
          files_changed := files_changed;
          diff := if len diff <=? 200000 then diff else [];
          committed := committed;
          commit_sha := commit_sha;
          usage := {| duration_ms := elapsed_ms t0 t1 |} |}.

End Operations.

End Server.

(** ** A scripted host

    A host small enough to run: every command that starts with a listed
    prefix takes a fixed number of seconds and ends in a fixed way, commands
    that match no prefix are not on the PATH, a command or directory that
    holds U+0000 is refused before anything is looked up, the clock advances
    by the time spent waiting, a kill finds its process, and the file system
    accepts every write.  It only emits ASCII output and takes directories
    without a trailing separator. *)

Module Scripted.
Import Text Effects Server.

Local Open Scope Z_scope.

Record job : Type := {
  prefix : list str;
  needs_sec : Z;
  fate : proc_result;
}.

Record machine : Type := {
  table : list job;
  now : Z;
  current_dir : str;
}.

Fixpoint starts_with (p cmd : list str) : bool :=
  match p, cmd with
  | [], _ => true
  | a :: p', b :: cmd' => bool_decide (a = b) && starts_with p' cmd'
  | _ :: _, [] => false
  end.

Definition find_job (cmd : list str) (t : list job) : option job :=
  List.find (fun j => starts_with (prefix j) cmd) t.

(** A string that holds U+0000. *)
Definition has_nul (s : str) : bool := existsb (N.eqb 0) s.

Definition exec (cmd : list str) (dir : option str) (env : gmap str str)
    (timeout : Z) (w : machine) : proc_result * machine :=
  if existsb has_nul (cmd ++ match dir with Some d => [d] | None => [] end)
  then (SpawnFailed (BadValue (u "embedded null byte")), w)
  else
  match find_job cmd (table w) with
  | None =>
      (SpawnFailed (OSFailure (u "[Errno 2] No such file or directory: '"
                               ++ hd [] cmd ++ u "'")), w)
  | Some j =>
      if timeout <? needs_sec j
      then (TimedOut, {| table := table w; now := now w + timeout;
                         current_dir := current_dir w |})
      else (fate j, {| table := table w; now := now w + needs_sec j;
                       current_dir := current_dir w |})
  end.

Definition decode_ascii (b : list Byte.byte) : str :=
  map (fun x => let n := Byte.to_N x in if (n <? 0x80)%N then n else 0xFFFD%N)
      b.

Definition is_digit (c : N) : bool := ((0x30 <=? c) && (c <=? 0x39))%N.

(** Digits with single underscores between them. *)
Fixpoint digits_value (acc : Z) (after_digit : bool) (s : str) : option Z :=
  match s with
  | [] => if after_digit then Some acc else None
  | c :: r =>
      if is_digit c then digits_value (10 * acc + Z.of_N (c - 0x30)) true r
      else if (c =? 0x5F)%N && after_digit then digits_value acc false r
      else None
  end.

Definition int_ascii (s : str) : str + Z :=
  let t := strip s in
  let v :=
    match t with
    | 0x2B%N :: r => digits_value 0 false r
    | 0x2D%N :: r => Z.opp <$> digits_value 0 false r
    | _ => digits_value 0 false t
    end in
  match v with
  | Some n => inr n
  | None => inl (u "invalid literal for int() with base 10: '" ++ s ++ u "'")
  end.

#[export] Instance host : Host := {|
  World := machine;
  Instant := Z;
  elapsed_ms t0 t1 := (t1 - t0) * 1000;
  decode := decode_ascii;
  py_int := int_ascii;
  path_child a b := a ++ u "/" ++ b;
  host_exec := exec;
  host_time w := (now w, w);
  host_getcwd w := inr (current_dir w);
  host_kill _ w := (None, w);
  host_mkdir _ w := (None, w);
  host_write_text _ _ w := (None, w);
|}.

(** The same machine in the race the timeout handler does not expect: the
    process is still running when the timeout fires and has ended when
    [proc.kill()] reaches it, so the kill raises [ProcessLookupError], whose
    text is empty. *)
Definition racing : Host := {|
  World := machine;
  Instant := Z;
  elapsed_ms t0 t1 := (t1 - t0) * 1000;
  decode := decode_ascii;
  py_int := int_ascii;
  path_child a b := a ++ u "/" ++ b;
  host_exec := exec;
  host_time w := (now w, w);
  host_getcwd w := inr (current_dir w);
  host_kill _ w := (Some [], w);
  host_mkdir _ w := (None, w);
  host_write_text _ _ w := (None, w);
|}.

Local Open Scope string_scope.

(** Output text as the bytes a process writes. *)
Definition bytes (s : string) : list Byte.byte := list_byte_of_string s.

Definition text_lines (l : list string) : list Byte.byte :=
  flat_map (fun s => (bytes s ++ [Byte.x0a])%list) l.

Definition exits (p : list string) (sec code : Z) (out err : list Byte.byte)
  : job :=
  {| prefix := map u p; needs_sec := sec; fate := Exited code out err |}.

Definition start (t : list job) : state :=
  {| world := {| table := t; now := 1000; current_dir := u "/home/dev/repo" |};
     environ := {[ u "PATH" := u "/usr/bin" ]};
     log := [] |}.

(** The same start on the racing machine. *)
Definition racing_start (t : list job) : @state racing :=
  @State racing
    {| table := t; now := 1000; current_dir := u "/home/dev/repo" |}
    {[ u "PATH" := u "/usr/bin" ]} [].

(** Both dependencies are installed. *)
Definition deps : list job :=
  [ exits ["node"; "-v"] 0 0 (text_lines ["v20.11.0"]) [];
    exits ["auggie"; "--version"] 0 0 (text_lines ["0.5.1"]) [] ].

(** The agent edits one file and leaves a new one. *)
Definition repo_with_changes (diff_out : list Byte.byte) : list job :=
  (deps ++
  [ exits ["auggie"] 30 0 (text_lines ["Updated src/a.py"; ""]) [];
    exits ["git"; "checkout"] 0 0 [] (text_lines ["Switched to branch"]);
    exits ["git"; "status"] 0 0
          (text_lines ["M  src/a.py"; "?? notes.txt"; "not a status line"]) [];
    exits ["git"; "diff"] 0 0 diff_out [];
    exits ["git"; "add"] 0 0 [] [];
    exits ["git"; "commit"] 0 0 (text_lines ["[main 3f2a1bc] ok"]) [];
    exits ["git"; "rev-parse"] 0 0
          (text_lines ["3f2a1bc0d4e5f60718293a4b5c6d7e8f90a1b2c3"]) [] ])%list.

Definition small_diff : list Byte.byte :=
  text_lines ["diff --git a/src/a.py b/src/a.py"; "+pass"].

Definition huge_diff : list Byte.byte :=
  repeat Byte.x2b (Pos.to_nat 200001).

(** The agent leaves the tree as it was. *)
Definition repo_without_changes : list job :=
  (deps ++
  [ exits ["auggie"] 30 0 (text_lines ["Nothing to do"]) [];
    exits ["git"; "status"] 0 0 [] [] ])%list.

(** The agent fails: once with a message on stderr, once with none. *)
Definition agent_fails (out err : list Byte.byte) : list job :=
  (deps ++ [ exits ["auggie"] 2 3 out err ])%list.

(** The agent binary is not installed. *)
Definition no_agent : list job :=
  [ exits ["node"; "-v"] 0 0 (text_lines ["v20.11.0"]) [] ].

(** The runtime is too old. *)
Definition old_node : list job :=
  [ exits ["node"; "-v"] 0 0 (text_lines ["v16.20.2"]) [];
    exits ["auggie"; "--version"] 0 0 (text_lines ["0.5.1"]) [] ].

(** A process that sleeps. *)
Definition sleeper : list job :=
  [ exits ["sleep"; "5"] 5 0 [] [] ].

Definition refactor_prompt : str :=
  u "Refactor the parser module to support streaming input".

(** The runs of the examples, and the outcomes they are expected to give. *)
Abbreviation committing_run :=
  (implement refactor_prompt None None None None false 300 None None true
     (start (repo_with_changes small_diff))).

Abbreviation previewing_run :=
  (implement refactor_prompt None (Some (u "feature/streaming")) None
     (Some [u "src/parser"]) true 300 None None true
     (start (repo_with_changes small_diff))).

Abbreviation oversized_run :=
  (implement refactor_prompt None None None None false 300 None None false
     (start (repo_with_changes huge_diff))).

Abbreviation blank_message_run :=
  (implement refactor_prompt None None (Some []) None false 300 None None
     false (start (repo_with_changes small_diff))).

Definition head_sha : str := u "3f2a1bc0d4e5f60718293a4b5c6d7e8f90a1b2c3".

Definition committing_outcome : ImplementResult :=
  {| summary := u "Updated src/a.py";
     files_changed := [u "src/a.py"; u "notes.txt"];
     diff := decode_ascii small_diff;
     committed := true;
     commit_sha := Some head_sha;
     usage := {| duration_ms := 30000 |} |}.

Definition previewing_outcome : ImplementResult :=
  {| summary := u "Updated src/a.py";
     files_changed := [u "src/a.py"; u "notes.txt"];
     diff := decode_ascii small_diff;
     committed := false;
     commit_sha := None;
     usage := {| duration_ms := 30000 |} |}.

Definition oversized_outcome : ImplementResult :=
  {| summary := u "Updated src/a.py";
     files_changed := [u "src/a.py"; u "notes.txt"];
     diff := [];
     committed := true;
     commit_sha := Some head_sha;
     usage := {| duration_ms := 30000 |} |}.

(** The machine after some seconds. *)
Definition later (t : list job) (sec : Z) : machine :=
  {| table := t; now := 1000 + sec; current_dir := u "/home/dev/repo" |}.

Definition where_is_it : str := u "Where is the parser?".

Definition rate_limited : list job :=
  agent_fails (text_lines ["partial answer"])
              (text_lines ["rate limit exceeded"]).

Definition answering : list job :=
  (deps ++ [ exits ["auggie"] 30 0 (text_lines ["In src/parser.py"]) [] ])%list.

End Scripted.

(** ** Reading a transcript

    The vocabulary of the statements below: what the status pattern means on a
    line, which version-control subcommands a transcript holds, and what a
    program guarantees about its result and final state. *)

Module Transcript.
Import Text Regex Collector Effects Server.

(** What the status pattern accepts on a line without a line feed: blanks,
    one or two status characters, at least one blank, and the rest, which is
    the path. *)
Definition status_line_spec (line : str) : option str :=
  match lstrip_by isspace line with
  | c1 :: r1 =>
      if status_code_char c1 then
        let r :=
          match r1 with
          | c2 :: r2 => if status_code_char c2 then r2 else r1
          | [] => r1
          end in
        match r with
        | s :: _ => if isspace s then Some (lstrip_by isspace r) else None
        | [] => None
        end
      else None
  | [] => None
  end.

Definition no_line_feed (s : str) : Prop :=
  Forall (fun c => any_but_newline c = true) s.

(** The tail of the status pattern: the group and the end of the line. *)
Definition tail_group : list node :=
  [Mark 0; MaxRepeat 0 None any_but_newline; Mark 1; AtEnd].

(** The arguments and the fate of a [git] process. *)
Definition git_call (ev : event) : option (list str * proc_result) :=
  match ev with
  | EvExec (g :: args) _ _ _ r =>
      if bool_decide (g = u "git") then Some (args, r) else None
  | _ => None
  end.

Definition git_calls (evs : list event) : list (list str * proc_result) :=
  omap git_call evs.

(** The subcommands that stage or commit. *)
Definition stage_or_commit (args : list str) : bool :=
  match args with
  | sub :: _ => bool_decide (sub = u "add") || bool_decide (sub = u "commit")
  | [] => false
  end.

(** The spec's name for the error of a failed agent run. *)
Definition AgentFailure (message : str) : exn :=
  RuntimeError (u "Auggie failed: " ++ message).

(** The spec's name for the error the guard around the dependency check
    raises. *)
Definition PreflightFailure (message : str) : exn :=
  RuntimeError (u "Preflight failed: " ++ message).

Definition preflight_cmd (cmd : list str) : Prop :=
  cmd = [u "node"; u "-v"] \/ cmd = [u "auggie"; u "--version"].

(** What the dependency check may leave in a transcript. *)
Definition preflight_event (ev : event) : Prop :=
  match ev with
  | EvExec cmd None _ _ _ | EvKill cmd _ => preflight_cmd cmd
  | EvStderr _ => True
  | _ => False
  end.

Section Logic.
Context `{H : Host}.

(** The version-control calls of a call to [implement] that returned [o], and
    how the fields of [o] come from their output. *)
Definition implement_success (prompt : str)
    (branch commit_message : option str) (dry_run : bool)
    (evs : list event) (o : ImplementResult) : Prop :=
  exists checkout_calls st_out st_err diff_calls fetched commit_calls,
    match branch with
    | Some (c :: r) =>
        exists out err,
          checkout_calls =
            [([u "checkout"; u "-B"; c :: r], Exited 0 out err)]
    | _ => checkout_calls = []
    end
    /\ files_changed o = collect_files (decode st_out)
    /\ (if nonempty (files_changed o)
        then exists out err,
               diff_calls = [([u "diff"], Exited 0 out err)]
               /\ fetched = decode out
        else diff_calls = [] /\ fetched = [])
    /\ diff o = (if (len fetched <=? 200000)%Z then fetched else [])
    /\ committed o = negb dry_run && nonempty (files_changed o)
    /\ (if committed o
        then exists a_out a_err c_out c_err r_out r_err,
               commit_calls =
                 [([u "add"; u "-A"], Exited 0 a_out a_err);
                  ([u "commit"; u "-m";
                    match commit_message with
                    | Some (c :: r) => c :: r
                    | _ => u "Implement: " ++ slice_to 72 prompt
                    end], Exited 0 c_out c_err);
                  ([u "rev-parse"; u "HEAD"], Exited 0 r_out r_err)]
               /\ commit_sha o = Some (strip (decode r_out))
        else commit_calls = [] /\ commit_sha o = None)
    /\ git_calls evs =
         checkout_calls
         ++ [([u "status"; u "--porcelain"], Exited 0 st_out st_err)]
         ++ diff_calls ++ commit_calls.

(** The version-control calls a run made from [σ] on, given its final state. *)
Definition calls_since (σ σ' : state) : list (list str * proc_result) :=
  git_calls (drop (length (log σ)) (log σ')).

(** [wp m Q σ]: running [m] from [σ] ends in a result and a state that
    satisfy [Q]. *)
Definition wp {A : Type} (m : prog A) (Q : result A -> state -> Prop)
    (σ : state) : Prop :=
  Q (m σ).1 (m σ).2.

(** [wps m Q σ]: if [m] returns from [σ], its value and final state satisfy
    [Q]. *)
Definition wps {A : Type} (m : prog A) (Q : A -> state -> Prop) (σ : state)
  : Prop :=
  wp m (fun r σ1 => match r with Ok a => Q a σ1 | Raised _ => True end) σ.

End Logic.

End Transcript.

(** ** Reading a whole run

    More vocabulary: the events and the processes of a run in the order they
    happened, the place of each process in the order the source starts them,
    and what a program may leave in the transcript whatever its result. *)

Module Observe.
Import Text Effects Server Transcript.

(** The comparison of a string with a literal of the source. *)
Definition lit (s : string) (x : str) : bool := bool_decide (x = u s).

(** The place of a command in the order in which the two operations start
    processes: the two version queries, the branch switch, the agent, and the
    five version-control steps.  Any other command has no place. *)
Definition launch_phase (cmd : list str) : option nat :=
  match cmd with
  | g :: sub :: rest =>
      if lit "node" g then
        if lit "-v" sub && bool_decide (rest = []) then Some 0%nat else None
      else if lit "auggie" g then
        if lit "--version" sub && bool_decide (rest = []) then Some 1%nat
        else if lit "--quiet" sub || lit "--print" sub then Some 3%nat
        else None
      else if lit "git" g then
        if lit "checkout" sub then
          match rest with
          | [f; _] => if lit "-B" f then Some 2%nat else None
          | _ => None
          end
        else if lit "status" sub then
          if bool_decide (rest = [u "--porcelain"]) then Some 4%nat else None
        else if lit "diff" sub then
          if bool_decide (rest = []) then Some 5%nat else None
        else if lit "add" sub then
          if bool_decide (rest = [u "-A"]) then Some 6%nat else None
        else if lit "commit" sub then
          match rest with
          | [f; _] => if lit "-m" f then Some 7%nat else None
          | _ => None
          end
        else if lit "rev-parse" sub then
          if bool_decide (rest = [u "HEAD"]) then Some 8%nat else None
        else None
      else None
  | _ => None
  end.

(** The commands of the processes started, in order. *)
Definition launches (evs : list event) : list (list str) :=
  omap (fun ev => match ev with
                  | EvExec cmd _ _ _ _ => Some cmd
                  | _ => None
                  end) evs.

(** Every command has a place, the places grow strictly, and they lie in
    [lo, hi). *)
Fixpoint in_order (lo hi : nat) (cmds : list (list str)) : Prop :=
  match cmds with
  | [] => (lo <= hi)%nat
  | cmd :: rest =>
      exists p, launch_phase cmd = Some p /\ (lo <= p < hi)%nat
                /\ in_order (S p) hi rest
  end.

(** The runs of the agent: command, working directory, environment, timeout
    and fate. *)
Definition agent_runs (evs : list event)
  : list (list str * option str * gmap str str * Z * proc_result) :=
  omap (fun ev => match ev with
                  | EvExec cmd cwd env t r =>
                      if bool_decide (launch_phase cmd = Some 3%nat)
                      then Some (cmd, cwd, env, t, r) else None
                  | _ => None
                  end) evs.

(** The settings [_read_only_settings] writes. *)
Definition read_only_policy : json :=
  JDict [(u "tool-permissions",
          JList [deny "save-file"; deny "str-replace-editor";
                 deny "remove-files"; deny "launch-process"])].

(** An option that is given: not [None] and not empty. *)
Definition given (o : option str) : nat :=
  match o with
  | Some (_ :: _) => 1
  | _ => 0
  end.

(** The lines printed to stderr, in order. *)
Definition stderr_lines (evs : list event) : list str :=
  omap (fun ev => match ev with
                  | EvStderr line => Some line
                  | _ => None
                  end) evs.

(** The messages sent to the client, in order. *)
Definition info_lines (evs : list event) : list str :=
  omap (fun ev => match ev with
                  | EvInfo msg => Some msg
                  | _ => None
                  end) evs.

(** The message that announces a command: its words quoted for a shell and
    joined by blanks. *)
Definition running_line (cmd : list str) : str :=
  u "Running: " ++ join (u " ") (map shlex_quote cmd).

(** With a context every agent run is announced, in order, and nothing else
    is; without one nothing is announced. *)
Definition announced (ctx : bool) (evs : list event) : Prop :=
  info_lines evs
  = if ctx then map (fun run => running_line run.1.1.1.1) (agent_runs evs)
    else [].

(** Neither a message to the client nor a run of the agent. *)
Definition unannounced (ev : event) : Prop :=
  match ev with
  | EvInfo _ => False
  | EvExec cmd _ _ _ _ => launch_phase cmd <> Some 3%nat
  | _ => True
  end.

(** The changes to the file system, in order. *)
Definition file_events (evs : list event) : list event :=
  List.filter (fun ev => match ev with
                         | EvMkdir _ | EvWriteText _ _ => true
                         | _ => false
                         end) evs.

(** The timeout each process is given: five seconds for the version queries,
    the caller's timeout for the agent, sixty seconds for version control. *)
Definition timeout_rule (timeout_sec : Z) (ev : event) : Prop :=
  match ev with
  | EvExec cmd _ _ t _ =>
      match launch_phase cmd with
      | Some 0%nat | Some 1%nat => t = 5%Z
      | Some 3%nat => t = timeout_sec
      | Some _ => t = 60%Z
      | None => False
      end
  | _ => True
  end.

(** Events that reach the working tree: a version-control process or a
    change to the file system. *)
Definition touches_tree (ev : event) : bool :=
  match ev with
  | EvExec (g :: _) _ _ _ _ => lit "git" g
  | EvMkdir _ | EvWriteText _ _ => true
  | _ => false
  end.

(** A process event carries the environment [env]. *)
Definition launched_with (env : gmap str str) (ev : event) : Prop :=
  match ev with
  | EvExec _ _ env' _ _ => env' = env
  | _ => True
  end.

(** What follows a process in the transcript when it did not end in time:
    the kill, with what became of it. *)
Definition aftermath (cmd : list str) (res : proc_result)
    (failed : option str) : list event :=
  match res with
  | TimedOut => [EvKill cmd failed]
  | _ => []
  end.

(** A process that exited with code 0. *)
Definition exited_zero (res : proc_result) : bool :=
  match res with
  | Exited code _ _ => (code =? 0)%Z
  | _ => false
  end.

(** No process but the version queries of the dependency check. *)
Definition no_launch (ev : event) : Prop :=
  match ev with
  | EvExec cmd _ _ _ _ => preflight_cmd cmd
  | _ => True
  end.

Section Runs.
Context `{H : Host}.

(** The events a run added to the transcript, given its final state. *)
Definition events_since (σ σ' : state) : list event :=
  drop (length (log σ)) (log σ').

(** [traces m S]: from any state, and whatever the result, the events [m]
    adds satisfy [S]. *)
Definition traces {A : Type} (m : prog A) (S : list event -> Prop) : Prop :=
  forall σ, wp m (fun _ σ' => exists evs, log σ' = log σ ++ evs /\ S evs) σ.

(** The directory [implement] works in: the one given, or the current one
    when none or an empty one is given. *)
Definition resolved (workspace_root : option str) (root : str) : Prop :=
  match workspace_root with
  | Some (c :: r) => root = c :: r
  | _ => exists w, host_getcwd w = inr root
  end.

(** The directory of the read-only settings under a root. *)
Definition settings_dir (root : str) : str :=
  path_child (path_child root (u ".augment")) (u ".mcp-temp").

(** What [_preflight] asks of the output of [node -v]: it is not blank, and
    what stands before the first dot, leading [v]s apart, reads as a number
    that is at least 18. *)
Definition node_ok (out : str) : Prop :=
  nonempty (strip out) = true
  /\ exists major,
       py_int (hd [] (split 0x2E%N (lstrip (u "v") (strip out)))) = inr major
       /\ (18 <= major)%Z.

(** The line [_preflight] prints before it exits. *)
Definition preflight_report (e : exn) : event :=
  EvStderr (u "[" ++ SERVER_NAME ++ u "] Preflight failed: " ++ exn_str e).

(** A process event carries the variable that points the agent at the
    read-only settings under [root]. *)
Definition restricted (root : str) (ev : event) : Prop :=
  match ev with
  | EvExec _ _ env _ _ =>
      env !! u "AUGMENT_CACHE_DIR" = Some (settings_dir root)
  | _ => True
  end.

(** [outcome m R]: from any state, the result of [m] and the events it adds
    satisfy [R]. *)
Definition outcome {A : Type} (m : prog A)
    (R : result A -> list event -> Prop) : Prop :=
  forall σ, wp m (fun r σ' => exists evs, log σ' = log σ ++ evs /\ R r evs) σ.

(** [steady m]: [m] leaves [os.environ] as it found it and hands it to every
    process it starts. *)
Definition steady {A : Type} (m : prog A) : Prop :=
  forall σ,
    wp m (fun _ σ' =>
            environ σ' = environ σ
            /\ exists evs, log σ' = log σ ++ evs
                 /\ Forall (launched_with (environ σ)) evs) σ.

(** The exception a process that did not end with exit code 0 causes outside
    the dependency check: the error of a spawn that failed; after a timeout
    the error of the kill when the kill failed, and the timeout otherwise;
    the error raised on a non-zero exit code by [_git] and by the two
    operations. *)
Definition failure_of (cmd : list str) (res : proc_result)
    (failed : option str) : option exn :=
  match res with
  | SpawnFailed e => Some (lib_exn e)
  | TimedOut =>
      match failed with
      | Some msg => Some (OSError msg)
      | None => Some TimeoutError
      end
  | Exited code out err =>
      if (code =? 0)%Z then None
      else
        let detail := str_or (strip (decode err)) (strip (decode out)) in
        match cmd with
        | g :: args =>
            if lit "git" g
            then Some (RuntimeError (u "git " ++ join (u " ") args
                                     ++ u " failed: " ++ detail))
            else Some (RuntimeError (u "Auggie failed: " ++ detail))
        | [] => None
        end
  end.

(** A process that fails outside the dependency check decides the result,
    and nothing follows it but the kill after a timeout. *)
Definition stops_at_failure {A : Type} (r : result A) (evs : list event)
  : Prop :=
  forall pre cmd cwd env t res post,
    evs = pre ++ EvExec cmd cwd env t res :: post ->
    ~ preflight_cmd cmd ->
    exited_zero res = false ->
    exists failed e,
      failure_of cmd res failed = Some e
      /\ r = Raised e
      /\ post = aftermath cmd res failed.

(** The statements inside the [try] of [_preflight]. *)
Definition preflight_checks : prog unit :=
  '(code, out, _) ← _run [u "node"; u "-v"] None 5%Z;
  assert ((code =? 0)%Z && nonempty (strip out)) [];;
  let ver := split 0x2E%N (lstrip (u "v") (strip out)) in
  major ← int (hd [] ver);
  assert (18 <=? major)%Z (u "Node 18+ required, found v" ++ strip out);;
  '(code, _, _) ← _run [u "auggie"; u "--version"] None 5%Z;
  assert (code =? 0)%Z [].

End Runs.

End Observe.

(** ** More runs on the scripted host *)

Module Cases.
Import Text Effects Server Scripted Observe.

Local Open Scope Z_scope.

(** A dry run in a repository the agent leaves alone. *)
Abbreviation idle_preview_run :=
  (implement refactor_prompt None None None None true 300 None None false
     (start repo_without_changes)).

Definition idle_outcome : ImplementResult :=
  {| summary := u "Nothing to do";
     files_changed := [];
     diff := [];
     committed := false;
     commit_sha := None;
     usage := {| duration_ms := 30000 |} |}.

(** A call that gives the agent ten seconds of the thirty it needs. *)
Abbreviation impatient_run :=
  (implement refactor_prompt None None None None false 10 None None false
     (start (repo_with_changes small_diff))).

(** A question that holds U+0000. *)
Definition broken_question : str := u "Where is " ++ [0%N] ++ u "?".

Abbreviation broken_run :=
  (ask_question broken_question None None None 120 false (start answering)).

Definition home : str := u "/home/dev/repo".

Definition path_only : gmap str str := {[ u "PATH" := u "/usr/bin" ]}.

(** The two version queries as they end on a machine with both
    dependencies. *)
Definition passed_check : list event :=
  [ EvExec [u "node"; u "-v"] None path_only 5
           (Exited 0 (text_lines ["v20.11.0"%string]) []);
    EvExec [u "auggie"; u "--version"] None path_only 5
           (Exited 0 (text_lines ["0.5.1"%string]) []) ].

End Cases.

(** * Facts

    ** The matcher and the status pattern *)

Import Text Regex Collector Effects Server Transcript.


Lemma backtrack_eq {R : Type} (cont : nat -> option R) lo k :
  backtrack cont lo k =
  if (k <? lo)%nat then None
  else match cont k with
       | Some r => Some r
       | None => match k with O => None | S k' => backtrack cont lo k' end
       end.
Proof. destruct k; reflexivity. Qed.

Lemma backtrack_first {R : Type} (cont : nat -> option R) lo k r :
  (lo <= k)%nat -> cont k = Some r -> backtrack cont lo k = Some r.
Proof.
  intros Hle Hk. rewrite backtrack_eq.
  destruct (Nat.ltb_spec k lo); [lia|]. rewrite Hk. reflexivity.
Qed.

Lemma backtrack_below {R : Type} (cont : nat -> option R) lo k :
  (k < lo)%nat -> backtrack cont lo k = None.
Proof.
  intros Hlt. rewrite backtrack_eq.
  destruct (Nat.ltb_spec k lo); [reflexivity|lia].
Qed.

Lemma backtrack_none {R : Type} (cont : nat -> option R) lo k :
  (forall j, (lo <= j <= k)%nat -> cont j = None) -> backtrack cont lo k = None.
Proof.
  induction k as [|k IH]; intros Hall; rewrite backtrack_eq.
  - destruct (Nat.ltb_spec 0 lo); [reflexivity|].
    rewrite Hall by lia. reflexivity.
  - destruct (Nat.ltb_spec (S k) lo); [reflexivity|].
    rewrite Hall by lia. apply IH. intros j Hj. apply Hall. lia.
Qed.

(** Unbounded runs: the run is what [lstrip_by] removes. *)
Lemma run_length_skip cls s :
  skipn (run_length cls None s) s = lstrip_by cls s.
Proof.
  induction s as [|c r IH]; cbn; [reflexivity|].
  destruct (cls c); cbn; [exact IH | reflexivity].
Qed.

Lemma run_length_le cls hi s : (run_length cls hi s <= length s)%nat.
Proof.
  revert hi. induction s as [|c r IH]; intros [[|n]|]; cbn; try lia;
    destruct (cls c); cbn; try lia.
  - specialize (IH (Some n)). cbn in IH. lia.
  - specialize (IH None). cbn in IH. lia.
Qed.

Lemma run_length_next cls s j :
  (j < run_length cls None s)%nat ->
  exists c r, skipn j s = c :: r /\ cls c = true.
Proof.
  revert j. induction s as [|c r IH]; intros j; cbn; [lia|].
  destruct (cls c) eqn:E; cbn; [|lia].
  destruct j as [|j]; cbn; [eauto|]. intros Hj. apply IH. lia.
Qed.

Lemma run_length_all cls s :
  Forall (fun c => cls c = true) s -> run_length cls None s = length s.
Proof.
  induction 1 as [|c r Hc _ IH]; cbn; [reflexivity|]. rewrite Hc. cbn.
  f_equal. exact IH.
Qed.


Lemma backtrack_last {R : Type} (cont : nat -> option R) lo k :
  (lo <= k)%nat -> (forall j, (lo <= j < k)%nat -> cont j = None) ->
  backtrack cont lo k = cont k.
Proof.
  intros Hle Hnone. destruct (cont k) as [r|] eqn:E.
  - apply backtrack_first; assumption.
  - apply backtrack_none. intros j Hj.
    destruct (decide (j = k)) as [->|]; [assumption | apply Hnone; lia].
Qed.

Lemma status_code_char_cases c :
  status_code_char c = true ->
  c = 0x41%N \/ c = 0x4D%N \/ c = 0x44%N \/ c = 0x52%N \/ c = 0x3F%N.
Proof.
  unfold status_code_char, mem_char.
  change (u "AMDR?") with [0x41; 0x4D; 0x44; 0x52; 0x3F]%N. cbn [existsb].
  rewrite !orb_true_iff, !N.eqb_eq. intuition discriminate.
Qed.

Lemma status_code_not_space c :
  status_code_char c = true -> isspace c = false.
Proof.
  intros Hc. apply status_code_char_cases in Hc.
  destruct Hc as [->|[->|[->|[->| ->]]]]; reflexivity.
Qed.

Lemma space_not_status_code c :
  isspace c = true -> status_code_char c = false.
Proof.
  intros Hs. destruct (status_code_char c) eqn:E; [|reflexivity].
  apply status_code_not_space in E. congruence.
Qed.

Lemma match_tail_group pos rest :
  no_line_feed rest ->
  match_here tail_group pos rest []
  = Some [(1, pos + length rest); (0, pos)]%nat.
Proof.
  intros Hnl. cbn [tail_group match_here].
  rewrite (run_length_all _ _ Hnl).
  apply backtrack_first; [lia|]. rewrite skipn_all. reflexivity.
Qed.

Lemma match_separator pos rest :
  no_line_feed rest ->
  match_here (MaxRepeat 1 None isspace :: tail_group) pos rest []
  = match rest with
    | s :: _ =>
        if isspace s
        then Some [(1, pos + length rest);
                   (0, pos + run_length isspace None rest)]%nat
        else None
    | [] => None
    end.
Proof.
  intros Hnl. cbn [match_here].
  destruct rest as [|s r]; [reflexivity|].
  destruct (isspace s) eqn:Es.
  - set (n := run_length isspace None (s :: r)).
    assert (1 <= n)%nat by (subst n; cbn; rewrite Es; lia).
    apply backtrack_first; [assumption|].
    fold tail_group. rewrite match_tail_group.
    + pose proof (run_length_le isspace None (s :: r)). fold n in H0.
      rewrite length_skipn. do 3 f_equal. lia.
    + apply Forall_drop. exact Hnl.
  - apply backtrack_below. cbn. rewrite Es. lia.
Qed.

Lemma run_length_two cls s :
  run_length cls (Some 2%nat) s
  = match s with
    | c1 :: r1 =>
        if cls c1
        then match r1 with
             | c2 :: _ => if cls c2 then 2%nat else 1%nat
             | [] => 1%nat
             end
        else 0%nat
    | [] => 0%nat
    end.
Proof.
  destruct s as [|c1 [|c2 r2]]; cbn; try reflexivity.
  destruct (cls c1); [|reflexivity]. destruct (cls c2); [|reflexivity].
  destruct r2; reflexivity.
Qed.

Lemma match_code pos rest :
  no_line_feed rest ->
  match_here (MaxRepeat 1 (Some 2%nat) status_code_char
              :: MaxRepeat 1 None isspace :: tail_group) pos rest []
  = match rest with
    | c1 :: r1 =>
        if status_code_char c1 then
          match r1 with
          | c2 :: r2 =>
              if status_code_char c2
              then match_here (MaxRepeat 1 None isspace :: tail_group)
                              (pos + 2) r2 []
              else match_here (MaxRepeat 1 None isspace :: tail_group)
                              (pos + 1) r1 []
          | [] => None
          end
        else None
    | [] => None
    end.
Proof.
  intros Hnl.
  change (match_here _ pos rest [])
    with (backtrack
            (fun k => match_here (MaxRepeat 1 None isspace :: tail_group)
                                 (pos + k) (skipn k rest) [])
            1 (run_length status_code_char (Some 2%nat) rest)).
  rewrite run_length_two.
  destruct rest as [|c1 r1]; [reflexivity|].
  destruct (status_code_char c1) eqn:E1; [|reflexivity].
  destruct r1 as [|c2 r2].
  - rewrite backtrack_last; [reflexivity | lia | intros; lia].
  - destruct (status_code_char c2) eqn:E2.
    + rewrite backtrack_eq. cbn [Nat.ltb Nat.leb].
      change (skipn 2 (c1 :: c2 :: r2)) with r2.
      destruct (match_here _ (pos + 2) r2 []) as [m|] eqn:Em; [reflexivity|].
      rewrite backtrack_last; [|lia|intros; lia].
      change (skipn 1 (c1 :: c2 :: r2)) with (c2 :: r2).
      rewrite match_separator by (inversion Hnl; assumption).
      rewrite (status_code_not_space _ E2). reflexivity.
    + rewrite backtrack_last; [reflexivity|lia|intros; lia].
Qed.

Lemma group_1 line a b :
  group 1 line [(1, b); (0, a)]%nat = Some (firstn (b - a) (skipn a line)).
Proof. reflexivity. Qed.

Lemma separator_group line pos rest :
  no_line_feed line -> skipn pos line = rest ->
  match_here (MaxRepeat 1 None isspace :: tail_group) pos rest []
    ≫= group 1 line
  = match rest with
    | s :: _ => if isspace s then Some (lstrip_by isspace rest) else None
    | [] => None
    end.
Proof.
  intros Hnl <-.
  rewrite match_separator by (apply Forall_drop, Hnl).
  destruct (skipn pos line) as [|s r] eqn:E; [reflexivity|].
  destruct (isspace s) eqn:Es; [|reflexivity].
  cbn [mbind option_bind]. rewrite group_1. f_equal.
  rewrite <- run_length_skip.
  set (n := run_length isspace None (s :: r)).
  assert (Hd : skipn (pos + n) line = skipn n (s :: r))
    by (rewrite <- E, drop_drop; reflexivity).
  rewrite Hd. apply firstn_all2. rewrite length_skipn. lia.
Qed.

Lemma status_line_path_spec line :
  no_line_feed line -> status_line_path line = status_line_spec line.
Proof.
  intros Hnl. unfold status_line_path, re_match, status_line_spec.
  change (match_here status_pattern 0 line [])
    with (backtrack
            (fun k =>
               match_here (MaxRepeat 1 (Some 2%nat) status_code_char
                           :: MaxRepeat 1 None isspace :: tail_group)
                          (0 + k) (skipn k line) [])
            0 (run_length isspace None line)).
  rewrite backtrack_last; [|lia|].
  2:{ intros j [_ Hj]. apply run_length_next in Hj as (c & r & Hs & Hc).
      rewrite match_code, Hs by (apply Forall_drop, Hnl).
      rewrite (space_not_status_code _ Hc). reflexivity. }
  rewrite match_code by (apply Forall_drop, Hnl).
  set (n := run_length isspace None line).
  pose proof (run_length_skip isspace line) as Hskip. fold n in Hskip.
  rewrite Hskip.
  destruct (lstrip_by isspace line) as [|c1 r1]; [reflexivity|].
  destruct (status_code_char c1); [|reflexivity].
  destruct r1 as [|c2 r2]; [reflexivity|].
  destruct (status_code_char c2).
  - apply separator_group; [assumption|].
    rewrite <- drop_drop. cbn [Nat.add]. rewrite Hskip. reflexivity.
  - apply (separator_group line _ (c2 :: r2)); [assumption|].
    rewrite <- drop_drop. cbn [Nat.add]. rewrite Hskip. reflexivity.
Qed.

Lemma linebreak_free_no_line_feed s :
  Forall (fun c => is_linebreak c = false) s -> no_line_feed s.
Proof.
  intros Hs. eapply Forall_impl; [exact Hs|]. intros c Hc.
  unfold any_but_newline.
  destruct (N.eqb_spec c 0x0A) as [->|]; [discriminate Hc | reflexivity].
Qed.

Lemma splitlines_from_linebreak_free after_cr cur s line :
  Forall (fun c => is_linebreak c = false) cur ->
  In line (splitlines_from after_cr cur s) ->
  Forall (fun c => is_linebreak c = false) line.
Proof.
  revert after_cr cur. induction s as [|c r IH]; intros after_cr cur Hcur.
  - cbn. destruct cur; [intros []|].
    intros [<-|[]]. apply Forall_rev. exact Hcur.
  - cbn [splitlines_from].
    destruct (after_cr && (c =? 0x0A)%N); [apply IH, Hcur|].
    destruct (is_linebreak c) eqn:Ec.
    + intros [<-|Hin]; [apply Forall_rev, Hcur | exact (IH _ _ (List.Forall_nil _) Hin)].
    + apply IH. constructor; assumption.
Qed.

Lemma splitlines_no_line_feed status line :
  In line (splitlines status) -> no_line_feed line.
Proof.
  intros Hin. apply linebreak_free_no_line_feed.
  exact (splitlines_from_linebreak_free _ _ _ _ (List.Forall_nil _) Hin).
Qed.

Lemma collect_fold lines acc :
  fold_left collect_step lines acc = acc ++ omap status_line_path lines.
Proof.
  revert acc. induction lines as [|l ls IH]; intros acc; cbn.
  - rewrite app_nil_r. reflexivity.
  - rewrite IH. unfold collect_step.
    destruct (status_line_path l); [rewrite <- app_assoc|]; reflexivity.
Qed.

Lemma collect_files_omap status :
  collect_files status = omap status_line_path (splitlines status).
Proof. unfold collect_files. apply collect_fold. Qed.

Lemma collect_files_spec status :
  collect_files status = omap status_line_spec (splitlines status).
Proof.
  rewrite collect_files_omap.
  assert (Hall : Forall no_line_feed (splitlines status)).
  { apply Forall_forall. intros l Hl. apply splitlines_no_line_feed with status.
    apply list_elem_of_In. exact Hl. }
  induction Hall as [|l ls Hl _ IH]; [reflexivity|].
  cbn. rewrite (status_line_path_spec l Hl), IH. reflexivity.
Qed.

(** ** Reasoning about programs *)

Lemma wp_elim `{H : Host} {A : Type} (m : prog A) Q σ r σ' :
  wp m Q σ -> m σ = (r, σ') -> Q r σ'.
Proof. unfold wp. intros HQ E. rewrite E in HQ. exact HQ. Qed.

Lemma wp_ret `{H : Host} {A : Type} (a : A) (Q : result A -> state -> Prop) σ :
  Q (Ok a) σ -> wp (mret a) Q σ.
Proof. exact id. Qed.

Lemma wp_raise `{H : Host} {A : Type} e (Q : result A -> state -> Prop) σ :
  Q (Raised e) σ -> wp (raise e) Q σ.
Proof. exact id. Qed.

Lemma wp_bind `{H : Host} {A B : Type} (m : prog A) (f : A -> prog B) Q σ :
  wp m (fun r σ1 => match r with
                    | Ok a => wp (f a) Q σ1
                    | Raised e => Q (Raised e) σ1
                    end) σ ->
  wp (m ≫= f) Q σ.
Proof.
  unfold wp, mbind, prog_bind. destruct (m σ) as [[a|e] σ1]; exact id.
Qed.

Lemma wp_try_except `{H : Host} {A : Type} (body : prog A) handler Q σ :
  wp body (fun r σ1 => match r with
                       | Ok a => Q (Ok a) σ1
                       | Raised e =>
                           if is_Exception e then wp (handler e) Q σ1
                           else Q (Raised e) σ1
                       end) σ ->
  wp (try_except body handler) Q σ.
Proof.
  unfold wp, try_except. destruct (body σ) as [[a|e] σ1]; cbn; [exact id|].
  destruct (is_Exception e); exact id.
Qed.

Lemma wp_mono `{H : Host} {A : Type} (m : prog A) (Q Q' : result A -> state -> Prop) σ :
  wp m Q σ -> (forall r σ1, Q r σ1 -> Q' r σ1) -> wp m Q' σ.
Proof. unfold wp. auto. Qed.

Lemma wp_emit `{H : Host} ev (Q : result unit -> state -> Prop) σ :
  Q (Ok tt) (State (world σ) (environ σ) (log σ ++ [ev])) -> wp (emit ev) Q σ.
Proof. exact id. Qed.

Lemma wp_get_environ `{H : Host} (Q : result (gmap str str) -> state -> Prop) σ :
  Q (Ok (environ σ)) σ -> wp get_environ Q σ.
Proof. exact id. Qed.

Lemma wp_set_environ `{H : Host} env (Q : result unit -> state -> Prop) σ :
  Q (Ok tt) (State (world σ) env (log σ)) -> wp (set_environ env) Q σ.
Proof. exact id. Qed.

Lemma wp_host_call `{H : Host} {A : Type} (f : World -> A * World) Q σ :
  (forall a w, f (world σ) = (a, w) -> Q (Ok a) (State w (environ σ) (log σ))) ->
  wp (host_call f) Q σ.
Proof.
  unfold wp, host_call. intros HQ. destruct (f (world σ)) as [a w] eqn:E.
  cbn. auto.
Qed.

Lemma wp_os_getcwd `{H : Host} (Q : result str -> state -> Prop) σ :
  (forall d, Q (Ok d) σ) -> (forall msg, Q (Raised (OSError msg)) σ) ->
  wp os_getcwd Q σ.
Proof.
  unfold wp, os_getcwd. intros H1 H2. destruct (host_getcwd _); cbn; auto.
Qed.

Lemma wp_run `{H : Host} cmd cwd t (Q : result (Z * str * str) -> state -> Prop) σ :
  (forall r w,
     host_exec cmd cwd (environ σ) t (world σ) = (r, w) ->
     let σ1 := State w (environ σ)
                 (log σ ++ [EvExec cmd cwd (environ σ) t r]) in
     match r with
     | SpawnFailed e => Q (Raised (lib_exn e)) σ1
     | TimedOut =>
         forall failed w',
           host_kill cmd w = (failed, w') ->
           Q (Raised match failed with
                     | Some msg => OSError msg
                     | None => TimeoutError
                     end)
             (State w' (environ σ) (log σ1 ++ [EvKill cmd failed]))
     | Exited code out err => Q (Ok (code, decode out, decode err)) σ1
     end) ->
  wp (_run cmd cwd t) Q σ.
Proof.
  intros HQ. unfold wp, _run, _env, get_environ, host_call, emit, raise, mbind,
    prog_bind, mret, prog_ret.
  specialize (HQ (host_exec cmd cwd (environ σ) t (world σ)).1
                 (host_exec cmd cwd (environ σ) t (world σ)).2).
  destruct (host_exec _ _ _ _ _) as [[e|code out err|] w]; cbn in *; auto.
  specialize (HQ eq_refl (host_kill cmd w).1 (host_kill cmd w).2).
  destruct (host_kill cmd w) as [[msg|] w']; cbn in *; auto.
Qed.

Lemma wp_assert `{H : Host} cond msg (Q : result unit -> state -> Prop) σ :
  (cond = true -> Q (Ok tt) σ) ->
  (cond = false -> Q (Raised (AssertionError msg)) σ) ->
  wp (assert cond msg) Q σ.
Proof. unfold wp, assert. destruct cond; cbn; auto. Qed.

Lemma wp_int `{H : Host} s (Q : result Z -> state -> Prop) σ :
  (forall n, Q (Ok n) σ) -> (forall msg, Q (Raised (ValueError msg)) σ) ->
  wp (int s) Q σ.
Proof. unfold wp, int. destruct (py_int s); cbn; auto. Qed.

Lemma wp_git `{H : Host} args cwd t (Q : result str -> state -> Prop) σ :
  (forall r w,
     host_exec (u "git" :: args) (Some cwd) (environ σ) t (world σ) = (r, w) ->
     let σ1 := State w (environ σ)
                 (log σ ++ [EvExec (u "git" :: args) (Some cwd) (environ σ) t r])
     in
     match r with
     | SpawnFailed e => Q (Raised (lib_exn e)) σ1
     | TimedOut =>
         forall failed w',
           host_kill (u "git" :: args) w = (failed, w') ->
           Q (Raised match failed with
                     | Some msg => OSError msg
                     | None => TimeoutError
                     end)
             (State w' (environ σ)
                (log σ1 ++ [EvKill (u "git" :: args) failed]))
     | Exited code out err =>
         if (code =? 0)%Z then Q (Ok (decode out)) σ1
         else forall msg, Q (Raised (RuntimeError msg)) σ1
     end) ->
  wp (_git args cwd t) Q σ.
Proof.
  intros HQ. unfold _git. apply wp_bind, wp_run. intros r w E.
  specialize (HQ r w E). destruct r as [msg|code out err|]; cbn in *; auto.
  destruct (code =? 0)%Z; cbn; [apply wp_ret | apply wp_raise]; auto.
Qed.

Ltac wp_step :=
  lazymatch goal with
  | |- wp (mret _) _ _ => apply wp_ret
  | |- wp (raise _) _ _ => apply wp_raise
  | |- wp (sys_exit _) _ _ => apply wp_raise
  | |- wp (_ ≫= _) _ _ => apply wp_bind
  | |- wp (try_except _ _) _ _ => apply wp_try_except
  | |- wp (emit _) _ _ => apply wp_emit
  | |- wp get_environ _ _ => apply wp_get_environ
  | |- wp (set_environ _) _ _ => apply wp_set_environ
  | |- wp (assert _ _) _ _ => apply wp_assert; intros ?
  | |- wp (int _) _ _ => apply wp_int; intros ?
  | |- wp (_run _ _ _) _ _ =>
      apply wp_run; intros [?|? ? ?|] ? ?; cbv zeta; [ | | intros ? ? ? ]
  | |- wp (_git _ _ _) _ _ =>
      let code := fresh "code" in
      apply wp_git; intros [?|code ? ?|] ? ?; cbv zeta;
      [ | destruct (Z.eqb_spec code 0) as [->|]; [|intros ?] | intros ? ? ? ]
  | |- wp (host_call _) _ _ => apply wp_host_call; intros ? ? ?
  | |- wp os_getcwd _ _ => apply wp_os_getcwd; intros ?
  | |- wp (os_error ?r) _ _ => destruct r; cbn [os_error]
  | |- wp time_time _ _ => unfold time_time
  | |- wp (path_mkdir _) _ _ => unfold path_mkdir
  | |- wp (path_write_text _ _) _ _ => unfold path_write_text
  | |- wp (_read_only_settings _) _ _ => unfold _read_only_settings
  | |- wp (announce ?c _) _ _ => unfold announce; destruct c
  | |- wp (if negb (?c =? 0)%Z then _ else _) _ _ =>
      destruct (Z.eqb_spec c 0) as [->|]; cbn [negb]
  | |- wp (if ?b then _ else _) _ _ => destruct b eqn:?
  | |- wp (match ?x with _ => _ end) _ _ => destruct x
  | |- if is_Exception (lib_exn ?e) then _ else _ => destruct e
  | |- if is_Exception (match ?f with _ => _ end) then _ else _ => destruct f
  end; cbv beta iota; cbn [is_Exception lib_exn world environ log].

Ltac log_shape :=
  cbn [world environ log]; rewrite <- ?app_assoc; cbn [app].

Lemma wp_preflight `{H : Host} (Q : result unit -> state -> Prop) σ :
  (forall o1 e1 o2 e2 w,
     Q (Ok tt)
       (State w (environ σ)
          (log σ ++
           [EvExec [u "node"; u "-v"] None (environ σ) 5 (Exited 0 o1 e1);
            EvExec [u "auggie"; u "--version"] None (environ σ) 5
                   (Exited 0 o2 e2)]))) ->
  (forall w evs,
     Forall preflight_event evs ->
     Q (Raised (SystemExit 1)) (State w (environ σ) (log σ ++ evs))) ->
  wp _preflight Q σ.
Proof.
  intros Hok Hexit. unfold _preflight.
  repeat wp_step;
    try (log_shape; apply Hexit; repeat constructor; unfold preflight_cmd;
         auto; fail).
  repeat match goal with
         | E : andb _ _ = true |- _ => apply andb_prop in E as [? ?]
         | E : (_ =? 0)%Z = true |- _ => apply Z.eqb_eq in E; subst
         end.
  log_shape. apply Hok.
Qed.

Lemma wp_guarded_preflight `{H : Host} (Q : result unit -> state -> Prop) σ :
  (forall o1 e1 o2 e2 w,
     Q (Ok tt)
       (State w (environ σ)
          (log σ ++
           [EvExec [u "node"; u "-v"] None (environ σ) 5 (Exited 0 o1 e1);
            EvExec [u "auggie"; u "--version"] None (environ σ) 5
                   (Exited 0 o2 e2)]))) ->
  (forall w evs,
     Forall preflight_event evs ->
     Q (Raised (SystemExit 1)) (State w (environ σ) (log σ ++ evs))) ->
  wp guarded_preflight Q σ.
Proof.
  intros Hok Hexit. unfold guarded_preflight.
  apply wp_try_except, wp_preflight; cbv beta iota; cbn [is_Exception]; auto.
Qed.

(** The handler around [_preflight] never runs. *)
Lemma guarded_preflight_eq `{H : Host} σ : guarded_preflight σ = _preflight σ.
Proof.
  unfold guarded_preflight, try_except.
  destruct (_preflight σ) as [r σ1] eqn:E.
  pose proof (wp_elim _ (fun r _ => r = Ok tt \/ r = Raised (SystemExit 1)) _ _ _
    (wp_preflight _ σ (fun _ _ _ _ _ => or_introl eq_refl)
                      (fun _ _ _ => or_intror eq_refl)) E) as [->| ->];
    reflexivity.
Qed.

Lemma wps_elim `{H : Host} {A : Type} (m : prog A) Q σ a σ' :
  wps m Q σ -> m σ = (Ok a, σ') -> Q a σ'.
Proof. unfold wps, wp. intros Hw E. rewrite E in Hw. exact Hw. Qed.

Lemma wps_ret `{H : Host} {A : Type} (a : A) (Q : A -> state -> Prop) σ :
  Q a σ -> wps (mret a) Q σ.
Proof. exact id. Qed.

Lemma wps_raise `{H : Host} {A : Type} e (Q : A -> state -> Prop) σ : wps (raise e) Q σ.
Proof. exact I. Qed.

Lemma wps_bind `{H : Host} {A B : Type} (m : prog A) (f : A -> prog B) Q σ :
  wps m (fun a σ1 => wps (f a) Q σ1) σ -> wps (m ≫= f) Q σ.
Proof.
  unfold wps, wp, mbind, prog_bind.
  destruct (m σ) as [[a|e] σ1]; cbn; auto.
Qed.

Lemma wps_mono `{H : Host} {A : Type} (m : prog A) (Q Q' : A -> state -> Prop) σ :
  wps m Q σ -> (forall a σ1, Q a σ1 -> Q' a σ1) -> wps m Q' σ.
Proof.
  unfold wps, wp. intros Hm HQ. destruct (m σ) as [[a|e] σ1]; cbn in *; auto.
Qed.

Lemma wps_git `{H : Host} args cwd t (Q : str -> state -> Prop) σ :
  (forall out err w,
     Q (decode out)
       (State w (environ σ)
          (log σ ++ [EvExec (u "git" :: args) (Some cwd) (environ σ) t
                            (Exited 0 out err)]))) ->
  wps (_git args cwd t) Q σ.
Proof.
  intros HQ. unfold wps. apply wp_git. intros [msg|code out err|] w _; cbv zeta; auto.
  destruct (Z.eqb_spec code 0) as [->|]; auto.
Qed.

Lemma wps_run `{H : Host} cmd cwd t (Q : Z * str * str -> state -> Prop) σ :
  (forall code out err w,
     Q (code, decode out, decode err)
       (State w (environ σ)
          (log σ ++ [EvExec cmd cwd (environ σ) t (Exited code out err)]))) ->
  wps (_run cmd cwd t) Q σ.
Proof.
  intros HQ. unfold wps. apply wp_run. intros [msg|code out err|] w _; cbv zeta; auto.
Qed.

Lemma wps_guarded_preflight `{H : Host} (Q : unit -> state -> Prop) σ :
  (forall o1 e1 o2 e2 w,
     Q tt
       (State w (environ σ)
          (log σ ++
           [EvExec [u "node"; u "-v"] None (environ σ) 5 (Exited 0 o1 e1);
            EvExec [u "auggie"; u "--version"] None (environ σ) 5
                   (Exited 0 o2 e2)]))) ->
  wps guarded_preflight Q σ.
Proof. intros HQ. unfold wps. apply wp_guarded_preflight; auto. Qed.

Lemma wps_time_time `{H : Host} (Q : Instant -> state -> Prop) σ :
  (forall t w, Q t (State w (environ σ) (log σ))) -> wps time_time Q σ.
Proof. intros HQ. unfold wps. apply wp_host_call. auto. Qed.

Lemma wps_resolve_root `{H : Host} (workspace_root : option str) (Q : str -> state -> Prop) σ :
  (forall d, Q d σ) ->
  wps (match workspace_root with
       | Some (c :: r) => mret (c :: r)
       | _ => os_getcwd
       end) Q σ.
Proof.
  intros HQ. destruct workspace_root as [[|c r]|];
    solve [apply wps_ret, HQ | unfold wps; apply wp_os_getcwd; auto].
Qed.

Lemma wps_path_mkdir `{H : Host} p (Q : unit -> state -> Prop) σ :
  (forall w, Q tt (State w (environ σ) (log σ ++ [EvMkdir p]))) ->
  wps (path_mkdir p) Q σ.
Proof.
  intros HQ. unfold path_mkdir. apply wps_bind. unfold wps at 1.
  apply wp_host_call.
  intros [msg|] w _; apply wps_bind; unfold wps at 1; apply wp_emit; cbn;
    [exact I | apply HQ].
Qed.

Lemma wps_path_write_text `{H : Host} p data (Q : unit -> state -> Prop) σ :
  (forall w, Q tt (State w (environ σ) (log σ ++ [EvWriteText p data]))) ->
  wps (path_write_text p data) Q σ.
Proof.
  intros HQ. unfold path_write_text. apply wps_bind. unfold wps at 1.
  apply wp_host_call.
  intros [msg|] w _; apply wps_bind; unfold wps at 1; apply wp_emit; cbn;
    [exact I | apply HQ].
Qed.

Lemma wps_announce `{H : Host} ctx cmd (Q : unit -> state -> Prop) σ :
  (forall evs,
     git_calls evs = [] ->
     Q tt (State (world σ) (environ σ) (log σ ++ evs))) ->
  wps (announce ctx cmd) Q σ.
Proof.
  intros HQ. destruct ctx.
  - unfold wps. apply wp_emit. apply HQ. reflexivity.
  - apply wps_ret. specialize (HQ [] eq_refl). rewrite app_nil_r in HQ.
    destruct σ; exact HQ.
Qed.

Lemma wps_get_environ `{H : Host} (Q : gmap str str -> state -> Prop) σ :
  Q (environ σ) σ -> wps get_environ Q σ.
Proof. exact id. Qed.

Lemma wps_set_environ `{H : Host} env (Q : unit -> state -> Prop) σ :
  Q tt (State (world σ) env (log σ)) -> wps (set_environ env) Q σ.
Proof. exact id. Qed.

Lemma git_calls_app evs1 evs2 :
  git_calls (evs1 ++ evs2) = git_calls evs1 ++ git_calls evs2.
Proof. apply omap_app. Qed.

Lemma git_calls_git args cwd env t r evs :
  git_calls (EvExec (u "git" :: args) cwd env t r :: evs)
  = (args, r) :: git_calls evs.
Proof. reflexivity. Qed.

Lemma git_calls_node cwd env t r evs :
  git_calls (EvExec [u "node"; u "-v"] cwd env t r :: evs) = git_calls evs.
Proof. reflexivity. Qed.

Lemma git_calls_auggie_version cwd env t r evs :
  git_calls (EvExec [u "auggie"; u "--version"] cwd env t r :: evs)
  = git_calls evs.
Proof. reflexivity. Qed.

Lemma git_calls_agent i w m rp q cwd env t r evs :
  git_calls (EvExec (_auggie_base_args i w m rp q) cwd env t r :: evs)
  = git_calls evs.
Proof.
  destruct w as [[|? ?]|], m as [[|? ?]|], rp as [[|? ?]|], q; reflexivity.
Qed.

Lemma git_calls_mkdir p evs : git_calls (EvMkdir p :: evs) = git_calls evs.
Proof. reflexivity. Qed.

Lemma git_calls_write p d evs :
  git_calls (EvWriteText p d :: evs) = git_calls evs.
Proof. reflexivity. Qed.

Lemma git_calls_nil : git_calls [] = [].
Proof. reflexivity. Qed.

Ltac wps_step :=
  lazymatch goal with
  | |- wps (mret _) _ _ => apply wps_ret
  | |- wps (raise _) _ _ => apply wps_raise
  | |- wps (_ ≫= _) _ _ => apply wps_bind
  | |- wps guarded_preflight _ _ =>
      apply wps_guarded_preflight; intros ? ? ? ? ?
  | |- wps time_time _ _ => apply wps_time_time; intros ? ?
  | |- wps (_git _ _ _) _ _ => apply wps_git; intros ? ? ?
  | |- wps (_run _ _ _) _ _ => apply wps_run; intros ? ? ? ?
  | |- wps (path_mkdir _) _ _ => apply wps_path_mkdir; intros ?
  | |- wps (path_write_text _ _) _ _ => apply wps_path_write_text; intros ?
  | |- wps (announce _ _) _ _ => apply wps_announce; intros ? ?
  | |- wps get_environ _ _ => apply wps_get_environ
  | |- wps (set_environ _) _ _ => apply wps_set_environ
  | |- wps (_read_only_settings _) _ _ => unfold _read_only_settings
  | |- wps (if negb (?c =? 0)%Z then _ else _) _ _ =>
      destruct (Z.eqb_spec c 0) as [->|]; cbn [negb]
  | |- wps (if ?b then _ else _) _ _ =>
      first [ match goal with E : b = _ |- _ => rewrite E end
            | destruct b eqn:? ]
  | |- wps (match ?x with _ => _ end) _ _ =>
      first [ apply wps_resolve_root; intros ? | destruct x ]
  end; cbv beta iota zeta; cbn [world environ log negb andb].


(** ** What a successful call to [implement] did *)

Lemma wps_implement `{H : Host} prompt workspace_root branch commit_message
    scope dry_run timeout_sec model rules_path ctx σ :
  wps (implement prompt workspace_root branch commit_message scope dry_run
         timeout_sec model rules_path ctx)
      (fun o σ' =>
         exists evs, log σ' = log σ ++ evs
           /\ implement_success prompt branch commit_message dry_run evs o) σ.
Proof.
  unfold implement. repeat wps_step.
  all: eexists; (split; [rewrite <- !app_assoc; reflexivity|]).
  all: cbn [app]; unfold implement_success.
  all: eexists _, _, _, _, _, _.
  all: cbn [files_changed diff committed commit_sha].
  all: split_and!;
    repeat match goal with
           | E : nonempty _ = _ |- _ => rewrite E
           end;
    cbn [negb andb].
  all: try reflexivity.
  all: try (split; reflexivity).
  all: try (eexists _, _; split; reflexivity).
  all: try (eexists _, _, _, _, _, _; split; reflexivity).
  all: repeat first
         [ rewrite git_calls_app | rewrite git_calls_node
         | rewrite git_calls_auggie_version | rewrite git_calls_git
         | rewrite git_calls_mkdir | rewrite git_calls_write
         | rewrite git_calls_agent | rewrite git_calls_nil ].
  all: repeat match goal with E : git_calls _ = [] |- _ => rewrite E end.
  all: reflexivity.
Qed.

Lemma implement_Ok `{H : Host} prompt workspace_root branch commit_message
    scope dry_run timeout_sec model rules_path ctx σ o :
  (implement prompt workspace_root branch commit_message scope dry_run
     timeout_sec model rules_path ctx σ).1 = Ok o ->
  exists evs,
    calls_since σ (implement prompt workspace_root branch commit_message scope
                     dry_run timeout_sec model rules_path ctx σ).2
    = git_calls evs
    /\ implement_success prompt branch commit_message dry_run evs o.
Proof.
  destruct (implement _ _ _ _ _ _ _ _ _ _ σ) as [r σ'] eqn:E. cbn [fst snd].
  intros ->.
  destruct (wps_elim _ _ _ _ _ (wps_implement _ _ _ _ _ _ _ _ _ _ _) E)
    as (evs & Hlog & Hs).
  exists evs. split; [|exact Hs].
  unfold calls_since. rewrite Hlog, drop_app_length. reflexivity.
Qed.

(** The calls around the status call, when nothing is committed. *)
Lemma checkout_calls_quiet (branch : option str) calls :
  match branch with
  | Some (c :: r) =>
      exists out err,
        calls = [([u "checkout"; u "-B"; c :: r], Exited 0 out err)]
  | _ => calls = []
  end ->
  Forall (fun call => stage_or_commit call.1 = false) calls
  /\ (forall args r, (args, r) ∈ calls -> head args = Some (u "checkout")).
Proof.
  destruct branch as [[|c r]|].
  1, 3: intros ->; split; [constructor | intros ? ? []%elem_of_nil].
  intros (out & err & ->). split.
  - repeat constructor.
  - intros args r' ->%list_elem_of_singleton%pair_equal_spec%proj1.
    reflexivity.
Qed.

Lemma diff_calls_cases (files : list str) calls fetched `{H : Host} :
  (if nonempty files
   then exists out err,
          calls = [([u "diff"], Exited 0 out err)] /\ fetched = decode out
   else calls = [] /\ fetched = []) ->
  (files = [] /\ calls = [] /\ fetched = [])
  \/ (files <> [] /\ exists out err,
        calls = [([u "diff"], Exited 0 out err)] /\ fetched = decode out).
Proof.
  destruct files; cbn; [intros [-> ->]; auto|].
  intros (out & err & -> & ->). right. split; [discriminate|eauto].
Qed.

(** * The claims *)

(** C1. A call to [implement] in dry-run mode that returns reports
    [committed = false], and none of the version-control calls it made is a
    stage or a commit, whatever the status call listed. *)
Theorem dry_run_never_commits `{H : Host} prompt workspace_root branch
    commit_message scope timeout_sec model rules_path ctx σ o :
  (implement prompt workspace_root branch commit_message scope true
     timeout_sec model rules_path ctx σ).1 = Ok o ->
  committed o = false
  /\ Forall (fun call => stage_or_commit call.1 = false)
       (calls_since σ
          (implement prompt workspace_root branch commit_message scope true
             timeout_sec model rules_path ctx σ).2).
Proof.
  intros E.
  destruct (implement_Ok _ _ _ _ _ _ _ _ _ _ _ _ E) as (evs & -> & Hs).
  destruct Hs as (cc & so & se & dc & fetched & mc & Hbr & _ & Hdc & _ & Hcom
                  & Hmc & Hcalls).
  cbn [negb andb] in Hcom. rewrite Hcom in Hmc. destruct Hmc as [-> _].
  split; [exact Hcom|]. rewrite Hcalls, app_nil_r.
  apply Forall_app. split; [exact (proj1 (checkout_calls_quiet _ _ Hbr))|].
  constructor; [reflexivity|].
  destruct (diff_calls_cases _ _ _ Hdc) as [(_ & -> & _)|(_ & ? & ? & -> & _)];
    repeat constructor.
Qed.

(** C2. In every outcome of [implement] the commit identifier is present
    exactly when [committed] is true, and then it is the stripped output of
    the [rev-parse HEAD] call, the last version-control call of the run. *)
Theorem commit_sha_iff_committed `{H : Host} prompt workspace_root branch
    commit_message scope dry_run timeout_sec model rules_path ctx σ o :
  (implement prompt workspace_root branch commit_message scope dry_run
     timeout_sec model rules_path ctx σ).1 = Ok o ->
  (commit_sha o <> None <-> committed o = true)
  /\ (committed o = true ->
      exists out err,
        last (calls_since σ
                (implement prompt workspace_root branch commit_message scope
                   dry_run timeout_sec model rules_path ctx σ).2)
        = Some ([u "rev-parse"; u "HEAD"], Exited 0 out err)
        /\ commit_sha o = Some (strip (decode out))).
Proof.
  intros E.
  destruct (implement_Ok _ _ _ _ _ _ _ _ _ _ _ _ E) as (evs & -> & Hs).
  destruct Hs as (cc & so & se & dc & fetched & mc & _ & _ & _ & _ & _ & Hmc
                  & Hcalls).
  destruct (committed o).
  - destruct Hmc as (ao & ae & co & ce & ro & re & -> & Hsha).
    split; [rewrite Hsha; split; [reflexivity | discriminate]|].
    intros _. exists ro, re. split; [|exact Hsha].
    rewrite Hcalls, !app_assoc.
    change [?a; ?b; ?c] with ([a; b] ++ [c]).
    rewrite app_assoc. apply last_snoc.
  - destruct Hmc as [_ ->]. split; [|discriminate].
    split; [intros []; reflexivity | discriminate].
Qed.

(** Where a [diff] call can sit among the calls of a run. *)
Lemma diff_call_inv `{H : Host} prompt branch commit_message dry_run evs o r :
  implement_success prompt branch commit_message dry_run evs o ->
  ([u "diff"], r) ∈ git_calls evs ->
  files_changed o <> []
  /\ exists out err,
       r = Exited 0 out err
       /\ diff o = (if (len (decode out) <=? 200000)%Z then decode out else []).
Proof.
  intros (cc & so & se & dc & fetched & mc & Hbr & _ & Hdc & Hdiff & _ & Hmc
          & Hcalls) Hin.
  rewrite Hcalls in Hin.
  apply elem_of_app in Hin as [Hin|Hin].
  { apply (proj2 (checkout_calls_quiet _ _ Hbr)) in Hin. discriminate Hin. }
  apply elem_of_cons in Hin as [Hin|Hin]; [discriminate Hin|].
  apply elem_of_app in Hin as [Hin|Hin].
  - destruct (diff_calls_cases _ _ _ Hdc)
      as [(_ & -> & _)|(Hne & out & err & -> & ->)].
    + apply elem_of_nil in Hin as [].
    + apply list_elem_of_singleton in Hin. injection Hin as ->.
      split; [exact Hne|]. exists out, err. split; [reflexivity|exact Hdiff].
  - destruct (committed o).
    + destruct Hmc as (? & ? & ? & ? & ? & ? & -> & _).
      repeat (apply elem_of_cons in Hin as [Hin|Hin]; [discriminate Hin|]).
      apply elem_of_nil in Hin as [].
    + destruct Hmc as [-> _]. apply elem_of_nil in Hin as [].
Qed.

(** C4. In every outcome of [implement] a non-empty [diff] comes with a
    non-empty [files_changed]; the [diff] field is the text the [diff] call
    printed, or the empty string when that text is longer than 200,000
    characters. *)
Theorem diff_needs_changes_and_is_capped `{H : Host} prompt workspace_root
    branch commit_message scope dry_run timeout_sec model rules_path ctx σ o :
  (implement prompt workspace_root branch commit_message scope dry_run
     timeout_sec model rules_path ctx σ).1 = Ok o ->
  let calls :=
    calls_since σ
      (implement prompt workspace_root branch commit_message scope dry_run
         timeout_sec model rules_path ctx σ).2 in
  (diff o <> [] -> files_changed o <> [])
  /\ (files_changed o <> [] ->
      exists out err, ([u "diff"], Exited 0 out err) ∈ calls)
  /\ (forall code out err,
        ([u "diff"], Exited code out err) ∈ calls ->
        ((200000 < len (decode out))%Z -> diff o = [])
        /\ ((len (decode out) <= 200000)%Z -> diff o = decode out)).
Proof.
  intros E calls. subst calls.
  destruct (implement_Ok _ _ _ _ _ _ _ _ _ _ _ _ E) as (evs & -> & Hs).
  split; [|split].
  - destruct Hs as (cc & so & se & dc & fetched & mc & _ & _ & Hdc & Hdiff & _).
    intros Hne Hnil. rewrite Hnil in Hdc. destruct Hdc as [_ ->].
    apply Hne. rewrite Hdiff. reflexivity.
  - destruct Hs as (cc & so & se & dc & fetched & mc & _ & _ & Hdc & _ & _ & _
                    & Hcalls).
    intros Hne. destruct (diff_calls_cases _ _ _ Hdc)
      as [(Hnil & _)|(_ & out & err & -> & _)]; [contradiction|].
    exists out, err. rewrite Hcalls.
    apply elem_of_app. right. apply elem_of_cons. right.
    apply elem_of_app. left. apply list_elem_of_singleton. reflexivity.
  - intros code out err Hin.
    destruct (diff_call_inv _ _ _ _ _ _ _ Hs Hin) as (_ & out' & err' & Heq & Hd).
    injection Heq as -> -> ->. rewrite Hd.
    destruct (Z.leb_spec (len (decode out')) 200000); split;
      intros; (reflexivity || lia).
Qed.

Lemma lstrip_by_split p s :
  exists ws, s = ws ++ lstrip_by p s /\ Forall (fun c => p c = true) ws.
Proof.
  induction s as [|c r (ws & Hs & Hws)]; cbn.
  - exists []. split; [reflexivity | constructor].
  - destruct (p c) eqn:Ec.
    + exists (c :: ws). split; [cbn; f_equal; exact Hs | constructor; assumption].
    + exists []. split; [reflexivity | constructor].
Qed.

(** The lines that the status pattern accepts, taken apart. *)
Lemma status_line_spec_Some line path :
  status_line_spec line = Some path ->
  exists ws code rest,
    line = ws ++ code ++ rest
    /\ Forall (fun c => isspace c = true) ws
    /\ (length code = 1 \/ length code = 2)%nat
    /\ Forall (fun c => status_code_char c = true) code
    /\ (exists s r, rest = s :: r /\ isspace s = true)
    /\ path = lstrip_by isspace rest.
Proof.
  unfold status_line_spec.
  destruct (lstrip_by_split isspace line) as (ws & Hline & Hws).
  destruct (lstrip_by isspace line) as [|c1 r1]; [discriminate|].
  destruct (status_code_char c1) eqn:E1; [|discriminate].
  assert (Hrest : forall code rest,
            line = ws ++ code ++ rest ->
            (length code = 1 \/ length code = 2)%nat ->
            Forall (fun c => status_code_char c = true) code ->
            match rest with
            | s :: _ =>
                if isspace s then Some (lstrip_by isspace rest) else None
            | [] => None
            end = Some path ->
            exists ws code rest,
              line = ws ++ code ++ rest
              /\ Forall (fun c => isspace c = true) ws
              /\ (length code = 1 \/ length code = 2)%nat
              /\ Forall (fun c => status_code_char c = true) code
              /\ (exists s r, rest = s :: r /\ isspace s = true)
              /\ path = lstrip_by isspace rest).
  { intros code rest Hl Hlen Hcode Hp. exists ws, code, rest.
    destruct rest as [|s r]; [discriminate|].
    destruct (isspace s) eqn:Es; [|discriminate].
    injection Hp as <-. split_and!; eauto. }
  destruct r1 as [|c2 r2].
  - discriminate.
  - destruct (status_code_char c2) eqn:E2.
    + apply (Hrest [c1; c2] r2); auto.
    + apply (Hrest [c1] (c2 :: r2)); auto.
Qed.

(** C5. The collector keeps, in order, the path of every status line that
    matches the pattern and drops the other lines without failing; the two
    lines of the scenario give their two paths, and a line that is no status
    line is dropped.  The [files_changed] of an outcome is the collector's
    reading of what the status call printed. *)
Theorem collector_parses_status_lines `{H : Host} prompt workspace_root branch
    commit_message scope dry_run timeout_sec model rules_path ctx σ o :
  (implement prompt workspace_root branch commit_message scope dry_run
     timeout_sec model rules_path ctx σ).1 = Ok o ->
  (exists out err,
     ([u "status"; u "--porcelain"], Exited 0 out err)
       ∈ calls_since σ
           (implement prompt workspace_root branch commit_message scope
              dry_run timeout_sec model rules_path ctx σ).2
     /\ files_changed o = collect_files (decode out))
  /\ (forall status,
        collect_files status = omap status_line_path (splitlines status))
  /\ (forall status line,
        line ∈ splitlines status ->
        status_line_path line = status_line_spec line)
  /\ collect_files (u "M  src/a.py" ++ [0x0A] ++ u "?? notes.txt" ++ [0x0A])
     = [u "src/a.py"; u "notes.txt"]
  /\ status_line_path (u "not a status line") = None
  /\ collect_files (u "M  src/a.py" ++ [0x0A] ++ u "not a status line"
                    ++ [0x0A] ++ u "?? notes.txt")
     = [u "src/a.py"; u "notes.txt"].
Proof.
  intros E.
  destruct (implement_Ok _ _ _ _ _ _ _ _ _ _ _ _ E) as (evs & -> & Hs).
  destruct Hs as (cc & so & se & dc & fetched & mc & _ & Hfiles & _ & _ & _ & _
                  & Hcalls).
  split_and!.
  - exists so, se. split; [|exact Hfiles]. rewrite Hcalls.
    apply elem_of_app. right. apply elem_of_cons. left. reflexivity.
  - exact collect_files_omap.
  - intros status line Hin. apply status_line_path_spec.
    apply splitlines_no_line_feed with status. apply list_elem_of_In, Hin.
  - vm_compute. reflexivity.
  - vm_compute. reflexivity.
  - vm_compute. reflexivity.
Qed.

(** C10. A status line is kept only when, after leading blanks, it starts
    with one or two characters among [A], [M], [D], [R], [?] followed by a
    blank; a line whose code has any other character, such as [C] or [UU],
    is dropped. *)
Theorem only_AMDR_codes_are_kept status line :
  line ∈ splitlines status ->
  (forall path,
     status_line_path line = Some path ->
     exists ws code rest,
       line = ws ++ code ++ rest
       /\ Forall (fun c => isspace c = true) ws
       /\ (length code = 1 \/ length code = 2)%nat
       /\ Forall (fun c => c ∈ [0x41; 0x4D; 0x44; 0x52; 0x3F]) code
       /\ (exists s r, rest = s :: r /\ isspace s = true)
       /\ path = lstrip_by isspace rest)
  /\ (forall c r,
        lstrip_by isspace line = c :: r ->
        c ∉ [0x41; 0x4D; 0x44; 0x52; 0x3F] ->
        status_line_path line = None)
  /\ (forall c1 c2 r,
        lstrip_by isspace line = c1 :: c2 :: r ->
        isspace c2 = false ->
        c2 ∉ [0x41; 0x4D; 0x44; 0x52; 0x3F] ->
        status_line_path line = None)
  /\ collect_files (u "C  src/copied.py" ++ [0x0A] ++ u "UU src/conflict.py"
                    ++ [0x0A] ++ u "M  src/a.py" ++ [0x0A])
     = [u "src/a.py"].
Proof.
  intros Hin.
  assert (Hspec : status_line_path line = status_line_spec line).
  { apply status_line_path_spec, splitlines_no_line_feed with status.
    apply list_elem_of_In, Hin. }
  assert (Hset : forall c,
            status_code_char c = true <-> c ∈ [0x41; 0x4D; 0x44; 0x52; 0x3F]).
  { intros c. split.
    - intros Hc. apply status_code_char_cases in Hc.
      repeat rewrite elem_of_cons. tauto.
    - repeat rewrite elem_of_cons. rewrite elem_of_nil.
      intros [->|[->|[->|[->|[->|[]]]]]]; reflexivity. }
  rewrite Hspec. split_and!.
  - intros path Hp.
    destruct (status_line_spec_Some _ _ Hp)
      as (ws & code & rest & Hl & Hws & Hlen & Hcode & Hrest & Hpath).
    exists ws, code, rest. split_and!; try assumption.
    eapply Forall_impl; [exact Hcode|]. intros c. apply Hset.
  - intros c r Hl Hc. unfold status_line_spec. rewrite Hl.
    destruct (status_code_char c) eqn:Ec; [|reflexivity].
    apply Hset in Ec. contradiction.
  - intros c1 c2 r Hl Hs Hc. unfold status_line_spec. rewrite Hl.
    destruct (status_code_char c1); [|reflexivity].
    destruct (status_code_char c2) eqn:Ec; [apply Hset in Ec; contradiction|].
    rewrite Hs. reflexivity.
  - vm_compute. reflexivity.
Qed.

(** The commit call of a run that commits. *)
Lemma commit_call_inv `{H : Host} prompt branch commit_message evs o :
  implement_success prompt branch commit_message false evs o ->
  files_changed o <> [] ->
  let message :=
    match commit_message with
    | Some (c :: r) => c :: r
    | _ => u "Implement: " ++ slice_to 72 prompt
    end in
  committed o = true
  /\ (exists out err,
        ([u "commit"; u "-m"; message], Exited 0 out err) ∈ git_calls evs)
  /\ (forall args r,
        (args, r) ∈ git_calls evs -> head args = Some (u "commit") ->
        args = [u "commit"; u "-m"; message]).
Proof.
  intros (cc & so & se & dc & fetched & mc & Hbr & _ & Hdc & _ & Hcom & Hmc
          & Hcalls) Hne message.
  assert (Hc : committed o = true).
  { rewrite Hcom. destruct (files_changed o); [contradiction|reflexivity]. }
  rewrite Hc in Hmc. destruct Hmc as (ao & ae & co & ce & ro & re & -> & _).
  split; [exact Hc|]. rewrite Hcalls. split.
  - exists co, ce. rewrite !elem_of_app, !elem_of_cons. tauto.
  - intros args r Hin Hhead.
    apply elem_of_app in Hin as [Hin|Hin].
    { apply (proj2 (checkout_calls_quiet _ _ Hbr)) in Hin.
      rewrite Hin in Hhead. vm_compute in Hhead. discriminate Hhead. }
    apply elem_of_cons in Hin as [Hin|Hin].
    { injection Hin as -> _. vm_compute in Hhead. discriminate Hhead. }
    apply elem_of_app in Hin as [Hin|Hin].
    { destruct (diff_calls_cases _ _ _ Hdc)
        as [(_ & -> & _)|(_ & ? & ? & -> & _)].
      - apply elem_of_nil in Hin as [].
      - apply list_elem_of_singleton in Hin. injection Hin as -> _.
        vm_compute in Hhead. discriminate Hhead. }
    apply elem_of_cons in Hin as [Hin|Hin].
    { injection Hin as -> _. vm_compute in Hhead. discriminate Hhead. }
    apply elem_of_cons in Hin as [Hin|Hin].
    { injection Hin as -> _. reflexivity. }
    apply list_elem_of_singleton in Hin. injection Hin as -> _.
    vm_compute in Hhead. discriminate Hhead.
Qed.

(** C6. When [implement] commits and the caller gave no commit message, the
    commit call carries ["Implement: "] followed by the first 72 characters
    of the prompt as the caller wrote it, whatever the scope; for the prompt
    of the scenario that is the whole prompt. *)
Theorem default_commit_message `{H : Host} prompt workspace_root branch scope
    timeout_sec model rules_path ctx σ o :
  (implement prompt workspace_root branch None scope false
     timeout_sec model rules_path ctx σ).1 = Ok o ->
  files_changed o <> [] ->
  let calls :=
    calls_since σ
      (implement prompt workspace_root branch None scope false
         timeout_sec model rules_path ctx σ).2 in
  committed o = true
  /\ (exists out err,
        ([u "commit"; u "-m"; u "Implement: " ++ firstn 72 prompt],
         Exited 0 out err) ∈ calls)
  /\ (forall args r,
        (args, r) ∈ calls -> head args = Some (u "commit") ->
        args = [u "commit"; u "-m"; u "Implement: " ++ firstn 72 prompt])
  /\ u "Implement: "
     ++ firstn 72 (u "Refactor the parser module to support streaming input")
     = u "Implement: Refactor the parser module to support streaming input".
Proof.
  intros E Hne calls. subst calls.
  destruct (implement_Ok _ _ _ _ _ _ _ _ _ _ _ _ E) as (evs & -> & Hs).
  destruct (commit_call_inv _ _ _ _ _ Hs Hne) as (Hc & Hin & Hall).
  split_and!; [exact Hc | exact Hin | exact Hall | vm_compute; reflexivity].
Qed.

(** C9. An empty commit message is read as no commit message: the two calls
    are the same program, and a run that commits with it issues the commit
    call with the default message. *)
Theorem empty_commit_message_is_omitted `{H : Host} prompt workspace_root
    branch scope timeout_sec model rules_path ctx σ :
  (forall dry_run,
     implement prompt workspace_root branch (Some []) scope dry_run
       timeout_sec model rules_path ctx σ
     = implement prompt workspace_root branch None scope dry_run
         timeout_sec model rules_path ctx σ)
  /\ (forall o,
        (implement prompt workspace_root branch (Some []) scope false
           timeout_sec model rules_path ctx σ).1 = Ok o ->
        files_changed o <> [] ->
        let calls :=
          calls_since σ
            (implement prompt workspace_root branch (Some []) scope false
               timeout_sec model rules_path ctx σ).2 in
        (exists out err,
           ([u "commit"; u "-m"; u "Implement: " ++ firstn 72 prompt],
            Exited 0 out err) ∈ calls)
        /\ (forall args r,
              (args, r) ∈ calls -> head args = Some (u "commit") ->
              args <> [u "commit"; u "-m"; []])).
Proof.
  split; [reflexivity|].
  intros o E Hne calls. subst calls.
  destruct (implement_Ok _ _ _ _ _ _ _ _ _ _ _ _ E) as (evs & -> & Hs).
  destruct (commit_call_inv _ _ _ _ _ Hs Hne) as (_ & Hin & Hall).
  split; [exact Hin|].
  intros args r Ha Hh. rewrite (Hall args r Ha Hh). discriminate.
Qed.

Lemma bind_run `{H : Host} {A B : Type} (m : prog A) (f : A -> prog B)
    σ a σ1 :
  m σ = (Ok a, σ1) -> (m ≫= f) σ = f a σ1.
Proof. unfold mbind, prog_bind. intros ->. reflexivity. Qed.

Lemma bind_raised `{H : Host} {A B : Type} (m : prog A) (f : A -> prog B)
    σ e σ1 :
  m σ = (Raised e, σ1) -> (m ≫= f) σ = (Raised e, σ1).
Proof. unfold mbind, prog_bind. intros ->. reflexivity. Qed.

Lemma run_eq `{H : Host} cmd cwd t σ :
  _run cmd cwd t σ =
  match host_exec cmd cwd (environ σ) t (world σ) with
  | (SpawnFailed e, w) =>
      (Raised (lib_exn e),
       State w (environ σ)
             (log σ ++ [EvExec cmd cwd (environ σ) t (SpawnFailed e)]))
  | (TimedOut, w) =>
      let (failed, w') := host_kill cmd w in
      (Raised match failed with
              | Some msg => OSError msg
              | None => TimeoutError
              end,
       State w' (environ σ)
             (log σ ++ [EvExec cmd cwd (environ σ) t TimedOut;
                        EvKill cmd failed]))
  | (Exited code out err, w) =>
      (Ok (code, decode out, decode err),
       State w (environ σ)
             (log σ ++ [EvExec cmd cwd (environ σ) t (Exited code out err)]))
  end.
Proof.
  unfold _run, _env, get_environ, host_call, emit, raise, mbind, prog_bind,
    mret, prog_ret.
  destruct (host_exec _ _ _ _ _) as [[e|code out err|] w]; cbn;
    rewrite <- ?app_assoc; try reflexivity.
  destruct (host_kill cmd w) as [[msg|] w']; cbn; rewrite <- ?app_assoc;
    reflexivity.
Qed.

(** C7. Once the dependency check has passed and the agent process has
    exited, [ask_question] depends on the exit code alone: any code but zero
    raises the agent failure whose text is the stripped stderr, or the
    stripped stdout when that is empty, and no answer is returned; code zero
    returns the stripped stdout and the time elapsed between the two clock
    readings. *)
Theorem ask_question_by_exit_code `{H : Host} question workspace_root model
    rules_path timeout_sec ctx σ t0 w1 code out err w2 :
  (guarded_preflight σ).1 = Ok tt ->
  host_time (world (guarded_preflight σ).2) = (t0, w1) ->
  host_exec (_auggie_base_args question workspace_root model rules_path true)
    workspace_root (environ σ) timeout_sec w1 = (Exited code out err, w2) ->
  (code <> 0%Z ->
   (ask_question question workspace_root model rules_path timeout_sec ctx σ).1
   = Raised (AgentFailure
               (if nonempty (strip (decode err)) then strip (decode err)
                else strip (decode out))))
  /\ (code = 0%Z ->
      forall t1 w3,
        host_time w2 = (t1, w3) ->
        (ask_question question workspace_root model rules_path timeout_sec
           ctx σ).1
        = Ok {| answer := strip (decode out);
                ask_usage := {| duration_ms := elapsed_ms t0 t1 |} |}).
Proof.
  destruct (guarded_preflight σ) as [r σ1] eqn:Hpre. cbn [fst snd].
  intros -> Htime Hexec.
  assert (Henv : environ σ1 = environ σ).
  { refine (wp_elim _ (fun _ σ' => environ σ' = environ σ) _ _ _ _ Hpre).
    apply wp_guarded_preflight; reflexivity. }
  rewrite <- Henv in Hexec.
  assert (Hrun : forall l,
            _run (_auggie_base_args question workspace_root model rules_path
                    true) workspace_root timeout_sec
                 (State w1 (environ σ1) l)
            = (Ok (code, decode out, decode err),
               State w2 (environ σ1)
                 (l ++ [EvExec (_auggie_base_args question workspace_root
                                  model rules_path true)
                          workspace_root (environ σ1) timeout_sec
                          (Exited code out err)]))).
  { intros l. rewrite run_eq. cbn [world environ log]. rewrite Hexec.
    reflexivity. }
  assert (Hclock : time_time σ1
                   = (Ok t0, State w1 (environ σ1) (log σ1))).
  { unfold time_time, host_call. rewrite Htime. reflexivity. }
  unfold ask_question.
  rewrite (bind_run _ _ _ _ _ Hpre), (bind_run _ _ _ _ _ Hclock).
  assert (Hann : exists l,
            announce ctx (_auggie_base_args question workspace_root model
                            rules_path true)
                     (State w1 (environ σ1) (log σ1))
            = (Ok tt, State w1 (environ σ1) l)).
  { destruct ctx; eexists; reflexivity. }
  destruct Hann as [l Hann].
  rewrite (bind_run _ _ _ _ _ Hann), (bind_run _ _ _ _ _ (Hrun l)).
  split.
  - intros Hcode. destruct (Z.eqb_spec code 0); [contradiction|]. reflexivity.
  - intros -> t1 w3 Htime1. cbn [Z.eqb negb].
    unfold mbind, prog_bind, time_time, host_call. cbn [world].
    rewrite Htime1. reflexivity.
Qed.

(** C8. When the process does not finish within the timeout, [_run] calls
    [proc.kill()] once and returns no exit code and no output.  It ends in
    the timeout error exactly when the kill did not raise: the kill is not
    guarded, and when it finds that the process has ended in the meantime
    its [ProcessLookupError] leaves [_run] in place of the timeout. *)
Theorem run_timeout_kill_unguarded `{H : Host} cmd cwd timeout σ w failed w' :
  host_exec cmd cwd (environ σ) timeout (world σ) = (TimedOut, w) ->
  host_kill cmd w = (failed, w') ->
  (forall a, (_run cmd cwd timeout σ).1 <> Ok a)
  /\ log (_run cmd cwd timeout σ).2
     = log σ ++ [EvExec cmd cwd (environ σ) timeout TimedOut;
                 EvKill cmd failed]
  /\ (failed = None -> (_run cmd cwd timeout σ).1 = Raised TimeoutError)
  /\ (forall msg,
        failed = Some msg ->
        (_run cmd cwd timeout σ).1 = Raised (OSError msg)
        /\ (_run cmd cwd timeout σ).1 <> Raised TimeoutError).
Proof.
  intros Hexec Hkill. rewrite run_eq, Hexec, Hkill. cbn [fst snd log].
  split_and!; [ destruct failed; discriminate | reflexivity | |].
  - intros ->. reflexivity.
  - intros msg ->. split; [reflexivity|discriminate].
Qed.

Lemma preflight_outcome `{H : Host} σ :
  wp _preflight
     (fun r σ' =>
        (r = Ok tt \/ r = Raised (SystemExit 1))
        /\ exists evs, log σ' = log σ ++ evs /\ Forall preflight_event evs) σ.
Proof.
  apply wp_preflight.
  - intros o1 e1 o2 e2 w. split; [left; reflexivity|].
    eexists. split; [reflexivity|].
    constructor; [left; reflexivity|].
    constructor; [right; reflexivity|]. constructor.
  - intros w evs Hevs. split; [right; reflexivity|]. exists evs. auto.
Qed.

(** C3. When the dependency check fails, both operations end in
    [SystemExit(1)] raised by [_preflight] itself; the handler that would
    turn the failure into an error of the call never runs.  Nothing but the
    two version queries was started. *)
Theorem preflight_failure_exits `{H : Host} σ e :
  (_preflight σ).1 = Raised e ->
  e = SystemExit 1
  /\ (forall message, e <> PreflightFailure message)
  /\ (forall question workspace_root model rules_path timeout_sec ctx,
        ask_question question workspace_root model rules_path timeout_sec
          ctx σ = (Raised (SystemExit 1), (_preflight σ).2))
  /\ (forall prompt workspace_root branch commit_message scope dry_run
             timeout_sec model rules_path ctx,
        implement prompt workspace_root branch commit_message scope dry_run
          timeout_sec model rules_path ctx σ
        = (Raised (SystemExit 1), (_preflight σ).2))
  /\ exists evs,
       log (_preflight σ).2 = log σ ++ evs /\ Forall preflight_event evs.
Proof.
  destruct (_preflight σ) as [r σ1] eqn:Hpre. cbn [fst snd]. intros ->.
  destruct (wp_elim _ _ _ _ _ (preflight_outcome σ) Hpre) as [[Hr|Hr] Hevs];
    [discriminate Hr|].
  injection Hr as ->.
  assert (Hg : guarded_preflight σ = (Raised (SystemExit 1), σ1))
    by (rewrite guarded_preflight_eq; exact Hpre).
  split_and!; [reflexivity|discriminate| | |exact Hevs].
  - intros. unfold ask_question. apply bind_raised, Hg.
  - intros. unfold implement. apply bind_raised, Hg.
Qed.

(** * More facts

    ** What a program leaves in the transcript, whatever its result *)

Import Observe.

Lemma traces_silent `{H : Host} {A : Type} (m : prog A)
    (S : list event -> Prop) :
  (forall σ, log (m σ).2 = log σ) -> S [] -> traces m S.
Proof.
  intros Hm HS σ. unfold wp. exists []. rewrite app_nil_r. auto.
Qed.

Lemma traces_ret `{H : Host} {A : Type} (a : A) (S : list event -> Prop) :
  S [] -> traces (mret a) S.
Proof. apply traces_silent. reflexivity. Qed.

Lemma traces_raise `{H : Host} {A : Type} e (S : list event -> Prop) :
  S [] -> traces (raise (A := A) e) S.
Proof. apply traces_silent. reflexivity. Qed.

Lemma traces_host_call `{H : Host} {A : Type} (f : World -> A * World)
    (S : list event -> Prop) :
  S [] -> traces (host_call f) S.
Proof.
  apply traces_silent. intros σ. unfold host_call.
  destruct (f (world σ)); reflexivity.
Qed.

Lemma traces_os_getcwd `{H : Host} (S : list event -> Prop) :
  S [] -> traces os_getcwd S.
Proof.
  apply traces_silent. intros σ. unfold os_getcwd.
  destruct (host_getcwd (world σ)); reflexivity.
Qed.

Lemma traces_get_environ `{H : Host} (S : list event -> Prop) :
  S [] -> traces get_environ S.
Proof. apply traces_silent. reflexivity. Qed.

Lemma traces_set_environ `{H : Host} env (S : list event -> Prop) :
  S [] -> traces (set_environ env) S.
Proof. apply traces_silent. reflexivity. Qed.

Lemma traces_assert `{H : Host} cond msg (S : list event -> Prop) :
  S [] -> traces (assert cond msg) S.
Proof. apply traces_silent. intros σ. destruct cond; reflexivity. Qed.

Lemma traces_int `{H : Host} s (S : list event -> Prop) :
  S [] -> traces (int s) S.
Proof.
  apply traces_silent. intros σ. unfold int. destruct (py_int s); reflexivity.
Qed.

Lemma traces_os_error `{H : Host} r (S : list event -> Prop) :
  S [] -> traces (os_error r) S.
Proof. apply traces_silent. intros σ. destruct r; reflexivity. Qed.

Lemma traces_emit `{H : Host} ev (S : list event -> Prop) :
  S [ev] -> traces (emit ev) S.
Proof. intros HS σ. exists [ev]. auto. Qed.

Lemma traces_bind `{H : Host} {A B : Type} (m : prog A) (f : A -> prog B)
    (S1 S2 S : list event -> Prop) :
  traces m S1 -> (forall a, traces (f a) S2) ->
  (forall e1, S1 e1 -> S e1) ->
  (forall e1 e2, S1 e1 -> S2 e2 -> S (e1 ++ e2)) ->
  traces (m ≫= f) S.
Proof.
  intros Hm Hf Hweak Happ σ. specialize (Hm σ).
  unfold wp, mbind, prog_bind in *.
  destruct (m σ) as [[a|e] σ1]; cbn in *; destruct Hm as (e1 & Hl1 & HS1).
  - specialize (Hf a σ1). unfold wp in Hf.
    destruct (f a σ1) as [r σ2]. cbn in *. destruct Hf as (e2 & Hl2 & HS2).
    exists (e1 ++ e2). rewrite Hl2, Hl1, app_assoc. auto.
  - exists e1. auto.
Qed.

Lemma traces_try_except `{H : Host} {A : Type} (body : prog A) handler
    (S1 S2 S : list event -> Prop) :
  traces body S1 -> (forall e, traces (handler e) S2) ->
  (forall e1, S1 e1 -> S e1) ->
  (forall e1 e2, S1 e1 -> S2 e2 -> S (e1 ++ e2)) ->
  traces (try_except body handler) S.
Proof.
  intros Hm Hh Hweak Happ σ. specialize (Hm σ).
  unfold wp, try_except in *.
  destruct (body σ) as [[a|e] σ1]; cbn in *; destruct Hm as (e1 & Hl1 & HS1).
  - exists e1. auto.
  - destruct (is_Exception e); [|exists e1; auto].
    specialize (Hh e σ1). unfold wp in Hh.
    destruct (handler e σ1) as [r σ2]. cbn in *. destruct Hh as (e2 & Hl2 & HS2).
    exists (e1 ++ e2). rewrite Hl2, Hl1, app_assoc. auto.
Qed.

Lemma traces_run `{H : Host} cmd cwd t (S : list event -> Prop) :
  (forall env r, r <> TimedOut -> S [EvExec cmd cwd env t r]) ->
  (forall env failed,
     S [EvExec cmd cwd env t TimedOut; EvKill cmd failed]) ->
  traces (_run cmd cwd t) S.
Proof.
  intros Hone Hkill σ. unfold wp. rewrite run_eq.
  destruct (host_exec _ _ _ _ _) as [[e|code out err|] w]; cbn;
    [ | | destruct (host_kill cmd w) as [failed w']; cbn ];
    eexists; (split; [reflexivity|]); auto; apply Hone; discriminate.
Qed.

Lemma traces_git `{H : Host} args cwd t (S : list event -> Prop) :
  (forall env r, r <> TimedOut ->
                 S [EvExec (u "git" :: args) (Some cwd) env t r]) ->
  (forall env failed,
     S [EvExec (u "git" :: args) (Some cwd) env t TimedOut;
        EvKill (u "git" :: args) failed]) ->
  traces (_git args cwd t) S.
Proof.
  intros Hone Hkill. unfold _git.
  apply (traces_bind _ _ S (fun evs => evs = []) S).
  - apply traces_run; assumption.
  - intros [[code out] err].
    destruct (negb (code =? 0)%Z); [apply traces_raise | apply traces_ret];
      reflexivity.
  - auto.
  - intros e1 e2 HS ->. rewrite app_nil_r. exact HS.
Qed.

Lemma traces_elim `{H : Host} {A : Type} (m : prog A) S σ :
  traces m S -> S (events_since σ (m σ).2).
Proof.
  intros Hm. destruct (Hm σ) as (evs & Hl & HS).
  unfold events_since. rewrite Hl, drop_app_length. exact HS.
Qed.


(** ** The order of the processes *)

Lemma launches_app evs1 evs2 :
  launches (evs1 ++ evs2) = launches evs1 ++ launches evs2.
Proof. apply omap_app. Qed.

Lemma in_order_le lo hi cmds : in_order lo hi cmds -> (lo <= hi)%nat.
Proof.
  revert lo. induction cmds as [|c r IH]; intros lo; cbn; [auto|].
  intros (p & _ & Hp & _). lia.
Qed.

Lemma in_order_weaken lo hi lo' hi' cmds :
  in_order lo hi cmds -> (lo' <= lo)%nat -> (hi <= hi')%nat ->
  in_order lo' hi' cmds.
Proof.
  revert lo lo'. induction cmds as [|c r IH]; intros lo lo'; cbn; [lia|].
  intros (p & Hc & Hp & Hr) Hlo Hhi. exists p.
  split_and!; [exact Hc | lia | lia | exact (IH _ _ Hr (Nat.le_refl _) Hhi)].
Qed.

Lemma in_order_app lo mid hi cmds1 cmds2 :
  in_order lo mid cmds1 -> in_order mid hi cmds2 ->
  in_order lo hi (cmds1 ++ cmds2).
Proof.
  revert lo. induction cmds1 as [|c r IH]; intros lo; cbn.
  - intros Hlo H2. exact (in_order_weaken _ _ _ _ _ H2 Hlo (Nat.le_refl _)).
  - intros (p & Hc & Hp & Hr) H2. exists p.
    pose proof (in_order_le _ _ _ H2).
    split_and!; [exact Hc | lia | lia | exact (IH _ Hr H2)].
Qed.

Lemma ordered_bind `{H : Host} {A B : Type} (m : prog A) (f : A -> prog B)
    lo mid hi :
  traces m (fun evs => in_order lo mid (launches evs)) ->
  (forall a, traces (f a) (fun evs => in_order mid hi (launches evs))) ->
  (mid <= hi)%nat ->
  traces (m ≫= f) (fun evs => in_order lo hi (launches evs)).
Proof.
  intros Hm Hf Hle. eapply traces_bind; [exact Hm | exact Hf | |]; cbn beta.
  - intros e1 H1. exact (in_order_weaken _ _ _ _ _ H1 (Nat.le_refl _) Hle).
  - intros e1 e2 H1 H2. rewrite launches_app. exact (in_order_app _ _ _ _ _ H1 H2).
Qed.

(** A step that starts no process. *)
Lemma ordered_pause `{H : Host} {A : Type} (m : prog A) lo hi :
  traces m (fun evs => launches evs = []) -> (lo <= hi)%nat ->
  traces m (fun evs => in_order lo hi (launches evs)).
Proof.
  intros Hm Hle σ. specialize (Hm σ). unfold wp in *.
  destruct Hm as (evs & Hl & He). exists evs. rewrite He. auto.
Qed.

Lemma ordered_run `{H : Host} cmd cwd t p lo hi :
  launch_phase cmd = Some p -> (lo <= p < hi)%nat ->
  traces (_run cmd cwd t) (fun evs => in_order lo hi (launches evs)).
Proof.
  intros Hc Hp. apply traces_run; intros; cbn; exists p; (split_and!; [exact Hc|lia|lia|lia]).
Qed.

Lemma ordered_git `{H : Host} args cwd t p lo hi :
  launch_phase (u "git" :: args) = Some p -> (lo <= p < hi)%nat ->
  traces (_git args cwd t) (fun evs => in_order lo hi (launches evs)).
Proof.
  intros Hc Hp. apply traces_git; intros; cbn; exists p; (split_and!; [exact Hc|lia|lia|lia]).
Qed.

Lemma launch_phase_agent i w m r q :
  launch_phase (_auggie_base_args i w m r q) = Some 3%nat.
Proof.
  destruct w as [[|? ?]|], m as [[|? ?]|], r as [[|? ?]|], q; reflexivity.
Qed.

(** Steps that start no process. *)
Lemma quiet_ret `{H : Host} {A : Type} (a : A) :
  traces (mret a) (fun evs => launches evs = []).
Proof. apply traces_ret. reflexivity. Qed.

Lemma quiet_raise `{H : Host} {A : Type} e :
  traces (raise (A := A) e) (fun evs => launches evs = []).
Proof. apply traces_raise. reflexivity. Qed.

Lemma quiet_bind `{H : Host} {A B : Type} (m : prog A) (f : A -> prog B) :
  traces m (fun evs => launches evs = []) ->
  (forall a, traces (f a) (fun evs => launches evs = [])) ->
  traces (m ≫= f) (fun evs => launches evs = []).
Proof.
  intros Hm Hf. eapply traces_bind; [exact Hm | exact Hf | auto |].
  cbn beta. intros e1 e2 H1 H2. rewrite launches_app, H1, H2. reflexivity.
Qed.

Ltac quiet :=
  repeat first
    [ apply quiet_ret | apply quiet_raise
    | apply quiet_bind; [|intros ?]
    | apply traces_host_call; reflexivity
    | apply traces_os_getcwd; reflexivity
    | apply traces_get_environ; reflexivity
    | apply traces_set_environ; reflexivity
    | apply traces_assert; reflexivity
    | apply traces_int; reflexivity
    | apply traces_os_error; reflexivity
    | apply traces_emit; reflexivity
    | progress unfold time_time, path_mkdir, path_write_text,
        _read_only_settings, announce, sys_exit
    | match goal with
      | |- traces (if ?b then _ else _) _ => destruct b
      | |- traces (match ?x with _ => _ end) _ => destruct x
      end ].

Lemma preflight_in_order `{H : Host} :
  traces _preflight (fun evs => in_order 0 2 (launches evs)).
Proof.
  unfold _preflight.
  eapply traces_try_except
    with (S1 := fun evs => in_order 0 2 (launches evs))
         (S2 := fun evs => launches evs = []).
  - eapply (ordered_bind _ _ 0 1 2); [|intros [[code out] e1]|lia].
    { eapply ordered_run; [reflexivity|lia]. }
    eapply (ordered_bind _ _ 1 1 2); [apply ordered_pause; [quiet|lia]|intros _|lia].
    cbv zeta.
    eapply (ordered_bind _ _ 1 1 2); [apply ordered_pause; [quiet|lia]|intros major|lia].
    eapply (ordered_bind _ _ 1 1 2); [apply ordered_pause; [quiet|lia]|intros _|lia].
    eapply (ordered_bind _ _ 1 2 2); [|intros [[code2 o2] e2]|lia].
    { eapply ordered_run; [reflexivity|lia]. }
    apply ordered_pause; [quiet|lia].
  - intros e. quiet.
  - auto.
  - cbn beta. intros e1 e2 H1 H2. rewrite launches_app, H2, app_nil_r. exact H1.
Qed.

Lemma guarded_preflight_in_order `{H : Host} :
  traces guarded_preflight (fun evs => in_order 0 2 (launches evs)).
Proof.
  unfold guarded_preflight.
  eapply traces_try_except
    with (S1 := fun evs => in_order 0 2 (launches evs))
         (S2 := fun evs => launches evs = []).
  - apply preflight_in_order.
  - intros e. quiet.
  - auto.
  - cbn beta. intros e1 e2 H1 H2. rewrite launches_app, H2, app_nil_r. exact H1.
Qed.


Lemma ordered_run_next `{H : Host} cmd cwd t p lo :
  launch_phase cmd = Some p -> (lo <= p)%nat ->
  traces (_run cmd cwd t) (fun evs => in_order lo (S p) (launches evs)).
Proof. intros Hc Hp. eapply ordered_run; [exact Hc|lia]. Qed.

Lemma ordered_git_next `{H : Host} args cwd t p lo :
  launch_phase (u "git" :: args) = Some p -> (lo <= p)%nat ->
  traces (_git args cwd t) (fun evs => in_order lo (S p) (launches evs)).
Proof. intros Hc Hp. eapply ordered_git; [exact Hc|lia]. Qed.

Ltac open_pair :=
  repeat lazymatch goal with
         | |- traces (match ?x with _ => _ end) _ => is_var x; destruct x
         end;
  cbv zeta.

Ltac pause_step :=
  lazymatch goal with
  | |- traces (_ ≫= _) (fun evs => in_order ?lo ?hi _) =>
      eapply (ordered_bind _ _ lo lo hi);
      [apply ordered_pause; [solve [quiet]|lia] | intros ?; open_pair | lia]
  end.

Ltac launch_step lemma :=
  lazymatch goal with
  | |- traces (_ ≫= _) (fun evs => in_order ?lo ?hi _) =>
      eapply (ordered_bind _ _ lo _ hi);
      [eapply lemma; [first [reflexivity | apply launch_phase_agent] | lia]
      | intros ?; open_pair | lia]
  end.

Lemma implement_in_order `{H : Host} prompt workspace_root branch
    commit_message scope dry_run timeout_sec model rules_path ctx :
  traces (implement prompt workspace_root branch commit_message scope dry_run
            timeout_sec model rules_path ctx)
         (fun evs => in_order 0 9 (launches evs)).
Proof.
  unfold implement.
  eapply (ordered_bind _ _ 0 2 9);
    [apply guarded_preflight_in_order | intros _ | lia].
  pause_step. pause_step.
  eapply (ordered_bind _ _ 2 3 9); [|intros _|lia].
  { destruct branch as [[|c r]|]; try (apply ordered_pause; [solve [quiet]|lia]).
    eapply (ordered_bind _ _ 2 3 3); [|intros _; apply ordered_pause; [solve [quiet]|lia]|lia].
    eapply ordered_git; [reflexivity|lia]. }
  cbv zeta. pause_step. pause_step. pause_step. pause_step.
  launch_step @ordered_run_next.
  pause_step.
  launch_step @ordered_git_next.
  eapply (ordered_bind _ _ 5 6 9); [|intros fetched|lia].
  { destruct (nonempty _); [eapply ordered_git; [reflexivity|lia]|].
    apply ordered_pause; [solve [quiet]|lia]. }
  eapply (ordered_bind _ _ 6 9 9); [|intros [committed sha]|lia].
  { destruct (negb dry_run && nonempty _); [|apply ordered_pause; [solve [quiet]|lia]].
    launch_step @ordered_git_next. launch_step @ordered_git_next.
    launch_step @ordered_git_next. apply ordered_pause; [solve [quiet]|lia]. }
  pause_step. apply ordered_pause; [solve [quiet]|lia].
Qed.


(** ** Properties of every event of a run *)

Lemma all_bind `{H : Host} {A B : Type} (m : prog A) (f : A -> prog B)
    (P : event -> Prop) :
  traces m (Forall P) -> (forall a, traces (f a) (Forall P)) ->
  traces (m ≫= f) (Forall P).
Proof.
  intros Hm Hf. eapply traces_bind; [exact Hm | exact Hf | auto |].
  intros e1 e2 H1 H2. apply Forall_app. auto.
Qed.

Lemma all_try_except `{H : Host} {A : Type} (body : prog A) handler
    (P : event -> Prop) :
  traces body (Forall P) -> (forall e, traces (handler e) (Forall P)) ->
  traces (try_except body handler) (Forall P).
Proof.
  intros Hm Hf. eapply traces_try_except; [exact Hm | exact Hf | auto |].
  intros e1 e2 H1 H2. apply Forall_app. auto.
Qed.

Lemma all_run `{H : Host} cmd cwd t (P : event -> Prop) :
  (forall env r, P (EvExec cmd cwd env t r)) ->
  (forall failed, P (EvKill cmd failed)) ->
  traces (_run cmd cwd t) (Forall P).
Proof.
  intros Hexec Hkill. apply traces_run; intros; repeat constructor; auto.
Qed.

Lemma all_git `{H : Host} args cwd t (P : event -> Prop) :
  (forall env r, P (EvExec (u "git" :: args) (Some cwd) env t r)) ->
  (forall failed, P (EvKill (u "git" :: args) failed)) ->
  traces (_git args cwd t) (Forall P).
Proof.
  intros Hexec Hkill. apply traces_git; intros; repeat constructor; auto.
Qed.

(** Walks a program down to its primitive steps; what is left are the
    properties of the events it can add. *)
Ltac all_events :=
  repeat first
    [ apply traces_ret; constructor
    | apply traces_raise; constructor
    | apply traces_host_call; constructor
    | apply traces_os_getcwd; constructor
    | apply traces_get_environ; constructor
    | apply traces_set_environ; constructor
    | apply traces_assert; constructor
    | apply traces_int; constructor
    | apply traces_os_error; constructor
    | apply traces_emit; apply List.Forall_cons; [|apply List.Forall_nil]
    | apply all_run; [intros ? ?|intros ?]
    | apply all_git; [intros ? ?|intros ?]
    | apply all_try_except; [|intros ?]
    | progress unfold time_time, path_mkdir, path_write_text,
        _read_only_settings, announce, sys_exit, _preflight,
        guarded_preflight
    | match goal with
      | |- traces (if ?b then _ else _) _ => destruct b
      | |- traces (match ?x with _ => _ end) _ => destruct x
      end
    | apply all_bind; [|intros ?] ].




Lemma touches_tree_agent i w m r q cwd env t res :
  touches_tree (EvExec (_auggie_base_args i w m r q) cwd env t res) = false.
Proof.
  destruct w as [[|? ?]|], m as [[|? ?]|], r as [[|? ?]|], q; reflexivity.
Qed.

Lemma untouched_tree evs :
  Forall (fun ev => touches_tree ev = false) evs ->
  git_calls evs = [] /\ file_events evs = [].
Proof.
  induction 1 as [|ev evs Hev _ [IHg IHf]]; [split; reflexivity|].
  unfold git_calls, file_events in *. cbn. rewrite IHg, IHf.
  destruct ev as [[|g args] ? ? ? ?| | | | |]; try discriminate Hev;
    try (split; reflexivity).
  cbn in Hev. unfold lit in Hev. unfold git_call. rewrite Hev.
  split; reflexivity.
Qed.

Lemma ask_question_in_order `{H : Host} question workspace_root model
    rules_path timeout_sec ctx :
  traces (ask_question question workspace_root model rules_path timeout_sec
            ctx)
         (fun evs => in_order 0 4 (launches evs)).
Proof.
  unfold ask_question.
  eapply (ordered_bind _ _ 0 2 4);
    [apply guarded_preflight_in_order | intros _ | lia].
  pause_step. pause_step. launch_step @ordered_run_next.
  apply ordered_pause; [solve [quiet]|lia].
Qed.

Lemma ask_question_untouched `{H : Host} question workspace_root model
    rules_path timeout_sec ctx :
  traces (ask_question question workspace_root model rules_path timeout_sec
            ctx)
         (Forall (fun ev => touches_tree ev = false)).
Proof.
  unfold ask_question. all_events; try reflexivity.
  all: apply touches_tree_agent.
Qed.

Lemma implement_timeouts `{H : Host} prompt workspace_root branch
    commit_message scope dry_run timeout_sec model rules_path ctx :
  traces (implement prompt workspace_root branch commit_message scope dry_run
            timeout_sec model rules_path ctx)
         (Forall (timeout_rule timeout_sec)).
Proof.
  unfold implement. all_events; try exact I; try reflexivity.
  all: unfold timeout_rule; rewrite launch_phase_agent; reflexivity.
Qed.

Lemma implement_writes `{H : Host} prompt workspace_root branch
    commit_message scope dry_run timeout_sec model rules_path ctx :
  traces (implement prompt workspace_root branch commit_message scope dry_run
            timeout_sec model rules_path ctx)
         (Forall (fun ev => match ev with
                            | EvWriteText _ _ => dry_run = true
                            | _ => True
                            end)).
Proof.
  unfold implement. all_events; try exact I; reflexivity.
Qed.


(** ** The first failure stops the operation *)

Lemma outcome_elim `{H : Host} {A : Type} (m : prog A) R σ :
  outcome m R -> R (m σ).1 (events_since σ (m σ).2).
Proof.
  intros Hm. destruct (Hm σ) as (evs & Hl & HR).
  unfold events_since. rewrite Hl, drop_app_length. exact HR.
Qed.

Lemma stops_of_quiet `{H : Host} {A : Type} (m : prog A) :
  traces m (Forall no_launch) -> outcome m stops_at_failure.
Proof.
  intros Hm σ. destruct (Hm σ) as (evs & Hl & Hq). exists evs.
  split; [exact Hl|].
  intros pre cmd cwd env t res post -> Hcmd _.
  apply Forall_app in Hq as [_ Hq]. apply Forall_cons in Hq as [Hq _].
  contradiction.
Qed.

Lemma stops_app `{H : Host} {A B : Type} (a : A) (r : result B) e1 e2 :
  stops_at_failure (Ok a) e1 -> stops_at_failure r e2 ->
  stops_at_failure r (e1 ++ e2).
Proof.
  intros H1 H2 pre cmd cwd env t res post Heq Hcmd Hfail.
  apply app_eq_inv in Heq as [(k & -> & Hk)|(k & -> & ->)].
  - destruct k as [|x k]; cbn in Hk.
    + subst e2. apply (H2 [] cmd cwd env t res post); auto.
    + injection Hk as <- ->.
      destruct (H1 pre cmd cwd env t res k eq_refl Hcmd Hfail)
        as (? & ? & _ & ? & _).
      discriminate.
  - apply (H2 k cmd cwd env t res post); auto.
Qed.

Lemma stops_bind `{H : Host} {A B : Type} (m : prog A) (f : A -> prog B) :
  outcome m stops_at_failure -> (forall a, outcome (f a) stops_at_failure) ->
  outcome (m ≫= f) stops_at_failure.
Proof.
  intros Hm Hf σ. specialize (Hm σ). unfold wp, mbind, prog_bind in *.
  destruct (m σ) as [[a|e] σ1]; cbn in *; destruct Hm as (e1 & Hl1 & H1).
  - specialize (Hf a σ1). unfold wp in Hf.
    destruct (f a σ1) as [r σ2]. cbn in *. destruct Hf as (e2 & Hl2 & H2).
    exists (e1 ++ e2). split; [rewrite Hl2, Hl1, app_assoc; reflexivity|].
    eapply stops_app; eauto.
  - exists e1. split; [exact Hl1|].
    intros pre cmd cwd env t res post Heq Hcmd Hfail.
    destruct (H1 pre cmd cwd env t res post Heq Hcmd Hfail)
      as (failed & e' & He' & [= <-] & Hpost).
    exists failed, e. auto.
Qed.

(** The transcript of a single process. *)
Lemma lone_process cmd cwd env t res tail pre cmd' cwd' env' t' res' post :
  (forall ev, In ev tail ->
              match ev with EvExec _ _ _ _ _ => False | _ => True end) ->
  EvExec cmd cwd env t res :: tail
  = pre ++ EvExec cmd' cwd' env' t' res' :: post ->
  pre = [] /\ cmd' = cmd /\ cwd' = cwd /\ env' = env /\ t' = t /\ res' = res
  /\ post = tail.
Proof.
  intros Htail Heq. destruct pre as [|x pre]; cbn in Heq.
  - injection Heq as <- <- <- <- <- <-. auto 10.
  - injection Heq as <- ->. exfalso.
    apply (Htail (EvExec cmd' cwd' env' t' res')).
    apply in_or_app. right. left. reflexivity.
Qed.

Lemma stops_run_then `{H : Host} {B : Type} cmd cwd t
    (k : Z * str * str -> prog B) :
  (forall code out err σ,
     code <> 0%Z ->
     exists e, (forall failed,
                  failure_of cmd (Exited code out err) failed = Some e)
               /\ k (code, decode out, decode err) σ = (Raised e, σ)) ->
  (forall out err, outcome (k (0%Z, out, err)) stops_at_failure) ->
  outcome (_run cmd cwd t ≫= k) stops_at_failure.
Proof.
  intros Hbad Hgood σ. unfold wp, mbind, prog_bind. rewrite run_eq.
  destruct (host_exec _ _ _ _ _) as [[e0|code out err|] w]; cbn.
  - eexists. split; [reflexivity|].
    intros pre cmd' cwd' env' t' res post Heq _ _.
    apply lone_process in Heq as (_ & -> & _ & _ & _ & -> & ->);
      [|intros ? []].
    exists None, (lib_exn e0). auto.
  - destruct (Z.eq_dec code 0%Z) as [->|Hne].
    + specialize (Hgood (decode out) (decode err)
                    (State w (environ σ)
                       (log σ ++ [EvExec cmd cwd (environ σ) t
                                         (Exited 0 out err)]))).
      unfold wp in Hgood.
      destruct (k _ _) as [r σ2]. cbn in *.
      destruct Hgood as (e2 & Hl2 & H2).
      exists ([EvExec cmd cwd (environ σ) t (Exited 0 out err)] ++ e2).
      split; [rewrite Hl2, <- app_assoc; reflexivity|].
      apply (stops_app (0%Z, decode out, decode err)); [|exact H2].
      intros pre cmd' cwd' env' t' res post Heq _ Hfail.
      apply lone_process in Heq as (_ & _ & _ & _ & _ & -> & _);
        [|intros ? []].
      discriminate Hfail.
    + destruct (Hbad code out err
                  (State w (environ σ)
                     (log σ ++ [EvExec cmd cwd (environ σ) t
                                       (Exited code out err)])) Hne)
        as (e & He & ->). cbn.
      eexists. split; [reflexivity|].
      intros pre cmd' cwd' env' t' res post Heq _ _.
      apply lone_process in Heq as (_ & -> & _ & _ & _ & -> & ->);
        [|intros ? []].
      exists None, e. auto.
  - destruct (host_kill cmd w) as [failed w']. cbn.
    eexists. split; [reflexivity|].
    intros pre cmd' cwd' env' t' res post Heq _ _.
    apply lone_process in Heq as (_ & -> & _ & _ & _ & -> & ->);
      [|intros ? [<-|[]]; exact I].
    exists failed. eexists. split_and!; [|reflexivity|reflexivity].
    destruct failed; reflexivity.
Qed.

Lemma stops_git `{H : Host} args cwd t :
  outcome (_git args cwd t) stops_at_failure.
Proof.
  unfold _git. apply stops_run_then.
  - intros code out err σ Hne. eexists. split.
    + intros failed. unfold failure_of.
      destruct (Z.eqb_spec code 0%Z); [contradiction|]. reflexivity.
    + destruct (Z.eqb_spec code 0%Z); [contradiction|]. reflexivity.
  - intros out err. apply stops_of_quiet, traces_ret. constructor.
Qed.

Lemma failure_of_agent `{H : Host} i w m r q code out err failed :
  code <> 0%Z ->
  failure_of (_auggie_base_args i w m r q) (Exited code out err) failed
  = Some (AgentFailure (str_or (strip (decode err)) (strip (decode out)))).
Proof.
  intros Hne. unfold failure_of.
  destruct (Z.eqb_spec code 0%Z); [contradiction|].
  destruct w as [[|? ?]|], m as [[|? ?]|], r as [[|? ?]|], q; reflexivity.
Qed.

Ltac quiet_step :=
  apply stops_of_quiet; all_events;
  solve [exact I | left; reflexivity | right; reflexivity].

Lemma ask_question_stops `{H : Host} question workspace_root model rules_path
    timeout_sec ctx :
  outcome (ask_question question workspace_root model rules_path timeout_sec
             ctx) stops_at_failure.
Proof.
  unfold ask_question.
  apply stops_bind; [quiet_step|intros _].
  apply stops_bind; [quiet_step|intros t0].
  apply stops_bind; [quiet_step|intros _].
  apply stops_run_then.
  - intros code out err σ Hne. eexists. split.
    + intros failed. apply failure_of_agent, Hne.
    + destruct (Z.eqb_spec code 0%Z); [contradiction|]. reflexivity.
  - intros out err. quiet_step.
Qed.


Ltac stops_step :=
  lazymatch goal with
  | |- outcome (_run _ _ _ ≫= _) _ =>
      apply stops_run_then;
      [ let code := fresh "code" in
        let Hne := fresh "Hne" in
        intros code ? ? ? Hne; eexists;
        (split; [intros ?; apply failure_of_agent, Hne|]);
        destruct (Z.eqb_spec code 0%Z); [contradiction|]; reflexivity
      | intros ? ?; cbv beta iota; cbn [Z.eqb negb] ]
  | |- outcome (_git _ _ _) _ => apply stops_git
  | |- outcome (if ?b then _ else _) _ => destruct b
  | |- outcome (match ?x with _ => _ end) _ => destruct x
  | |- outcome (_ ≫= _) _ => apply stops_bind; [|intros ?]
  | |- outcome _ _ => quiet_step
  end.

Lemma implement_stops `{H : Host} prompt workspace_root branch commit_message
    scope dry_run timeout_sec model rules_path ctx :
  outcome (implement prompt workspace_root branch commit_message scope dry_run
             timeout_sec model rules_path ctx) stops_at_failure.
Proof. unfold implement. repeat stops_step. Qed.


(** ** The environment of the processes *)

Lemma steady_still `{H : Host} {A : Type} (m : prog A) :
  (forall σ, environ (m σ).2 = environ σ /\ log (m σ).2 = log σ) -> steady m.
Proof.
  intros Hm σ. destruct (Hm σ) as [He Hl]. unfold wp.
  split; [exact He|]. exists []. rewrite app_nil_r. split; [exact Hl|].
  constructor.
Qed.

Lemma steady_ret `{H : Host} {A : Type} (a : A) : steady (mret a).
Proof. apply steady_still. auto. Qed.

Lemma steady_raise `{H : Host} {A : Type} e : steady (raise (A := A) e).
Proof. apply steady_still. auto. Qed.

Lemma steady_host_call `{H : Host} {A : Type} (f : World -> A * World) :
  steady (host_call f).
Proof.
  apply steady_still. intros σ. unfold host_call.
  destruct (f (world σ)); auto.
Qed.

Lemma steady_os_getcwd `{H : Host} : steady os_getcwd.
Proof.
  apply steady_still. intros σ. unfold os_getcwd.
  destruct (host_getcwd (world σ)); auto.
Qed.

Lemma steady_get_environ `{H : Host} : steady get_environ.
Proof. apply steady_still. auto. Qed.

Lemma steady_assert `{H : Host} cond msg : steady (assert cond msg).
Proof. apply steady_still. intros σ. destruct cond; auto. Qed.

Lemma steady_int `{H : Host} s : steady (int s).
Proof.
  apply steady_still. intros σ. unfold int. destruct (py_int s); auto.
Qed.

Lemma steady_os_error `{H : Host} r : steady (os_error r).
Proof. apply steady_still. intros σ. destruct r; auto. Qed.

Lemma steady_emit `{H : Host} ev :
  (forall env, launched_with env ev) -> steady (emit ev).
Proof.
  intros Hev σ. unfold wp. split; [reflexivity|]. exists [ev].
  split; [reflexivity|]. repeat constructor. apply Hev.
Qed.

Lemma steady_bind `{H : Host} {A B : Type} (m : prog A) (f : A -> prog B) :
  steady m -> (forall a, steady (f a)) -> steady (m ≫= f).
Proof.
  intros Hm Hf σ. specialize (Hm σ). unfold wp, mbind, prog_bind in *.
  destruct (m σ) as [[a|e] σ1]; cbn in *;
    destruct Hm as (He1 & e1 & Hl1 & H1).
  - specialize (Hf a σ1). unfold wp in Hf.
    destruct (f a σ1) as [r σ2]. cbn in *.
    destruct Hf as (He2 & e2 & Hl2 & H2). rewrite He1 in He2, H2.
    split; [exact He2|]. exists (e1 ++ e2).
    split; [rewrite Hl2, Hl1, app_assoc; reflexivity|].
    apply Forall_app. auto.
  - split; [exact He1|]. exists e1. auto.
Qed.

Lemma steady_try_except `{H : Host} {A : Type} (body : prog A) handler :
  steady body -> (forall e, steady (handler e)) ->
  steady (try_except body handler).
Proof.
  intros Hm Hh σ. specialize (Hm σ). unfold wp, try_except in *.
  destruct (body σ) as [[a|e] σ1]; cbn in *;
    destruct Hm as (He1 & e1 & Hl1 & H1).
  - split; [exact He1|]. exists e1. auto.
  - destruct (is_Exception e); [|split; [exact He1|]; exists e1; auto].
    specialize (Hh e σ1). unfold wp in Hh.
    destruct (handler e σ1) as [r σ2]. cbn in *.
    destruct Hh as (He2 & e2 & Hl2 & H2). rewrite He1 in He2, H2.
    split; [exact He2|]. exists (e1 ++ e2).
    split; [rewrite Hl2, Hl1, app_assoc; reflexivity|].
    apply Forall_app. auto.
Qed.

Lemma steady_run `{H : Host} cmd cwd t : steady (_run cmd cwd t).
Proof.
  intros σ. unfold wp. rewrite run_eq.
  destruct (host_exec _ _ _ _ _) as [[e|code out err|] w]; cbn;
    [ | | destruct (host_kill cmd w) as [failed w']; cbn ];
    (split; [reflexivity|]); eexists; (split; [reflexivity|]);
    repeat constructor.
Qed.

(** Walks a program that does not assign [os.environ]. *)
Ltac steady_steps :=
  repeat first
    [ apply steady_ret
    | apply steady_raise
    | apply steady_run
    | apply steady_host_call
    | apply steady_os_getcwd
    | apply steady_get_environ
    | apply steady_assert
    | apply steady_int
    | apply steady_os_error
    | apply steady_emit; intros ?; exact I
    | apply steady_try_except; [|intros ?]
    | progress unfold time_time, path_mkdir, path_write_text,
        _read_only_settings, announce, sys_exit, _preflight,
        guarded_preflight, _git
    | match goal with
      | |- steady (if ?b then _ else _) => destruct b
      | |- steady (match ?x with _ => _ end) => destruct x
      end
    | apply steady_bind; [|intros ?] ].

Lemma ask_question_steady `{H : Host} question workspace_root model rules_path
    timeout_sec ctx :
  steady (ask_question question workspace_root model rules_path timeout_sec
            ctx).
Proof. unfold ask_question. steady_steps. Qed.

Lemma implement_steady `{H : Host} prompt workspace_root branch commit_message
    scope timeout_sec model rules_path ctx :
  steady (implement prompt workspace_root branch commit_message scope false
            timeout_sec model rules_path ctx).
Proof. unfold implement. steady_steps. Qed.

Lemma steady_elim `{H : Host} {A : Type} (m : prog A) σ :
  steady m ->
  environ (m σ).2 = environ σ
  /\ Forall (launched_with (environ σ)) (events_since σ (m σ).2).
Proof.
  intros Hm. destruct (Hm σ) as (He & evs & Hl & Hall).
  split; [exact He|]. unfold events_since. rewrite Hl, drop_app_length.
  exact Hall.
Qed.


(** ** What a successful call to [implement] did besides version control *)

Lemma launch_phase_git args : launch_phase (u "git" :: args) <> Some 3%nat.
Proof.
  destruct args as [|sub rest]; [discriminate|]. unfold launch_phase.
  change (lit "node" (u "git")) with false.
  change (lit "auggie" (u "git")) with false.
  change (lit "git" (u "git")) with true. cbv iota.
  repeat (case_match; try discriminate).
Qed.

Lemma agent_runs_app evs1 evs2 :
  agent_runs (evs1 ++ evs2) = agent_runs evs1 ++ agent_runs evs2.
Proof. apply omap_app. Qed.

Lemma agent_runs_git args cwd env t r evs :
  agent_runs (EvExec (u "git" :: args) cwd env t r :: evs) = agent_runs evs.
Proof.
  unfold agent_runs. cbn [omap list_omap].
  rewrite bool_decide_eq_false_2 by apply launch_phase_git. reflexivity.
Qed.

Lemma agent_runs_agent i w m rp q cwd env t r evs :
  agent_runs (EvExec (_auggie_base_args i w m rp q) cwd env t r :: evs)
  = (_auggie_base_args i w m rp q, cwd, env, t, r) :: agent_runs evs.
Proof.
  unfold agent_runs. cbn [omap list_omap].
  rewrite bool_decide_eq_true_2 by apply launch_phase_agent. reflexivity.
Qed.

Lemma agent_runs_node cwd env t r evs :
  agent_runs (EvExec [u "node"; u "-v"] cwd env t r :: evs) = agent_runs evs.
Proof. reflexivity. Qed.

Lemma agent_runs_auggie_version cwd env t r evs :
  agent_runs (EvExec [u "auggie"; u "--version"] cwd env t r :: evs)
  = agent_runs evs.
Proof. reflexivity. Qed.

Lemma agent_runs_mkdir p evs : agent_runs (EvMkdir p :: evs) = agent_runs evs.
Proof. reflexivity. Qed.

Lemma agent_runs_write p d evs :
  agent_runs (EvWriteText p d :: evs) = agent_runs evs.
Proof. reflexivity. Qed.

Lemma file_events_exec cmd cwd env t r evs :
  file_events (EvExec cmd cwd env t r :: evs) = file_events evs.
Proof. reflexivity. Qed.

Lemma file_events_mkdir p evs :
  file_events (EvMkdir p :: evs) = EvMkdir p :: file_events evs.
Proof. reflexivity. Qed.

Lemma file_events_write p d evs :
  file_events (EvWriteText p d :: evs) = EvWriteText p d :: file_events evs.
Proof. reflexivity. Qed.

Lemma file_events_app evs1 evs2 :
  file_events (evs1 ++ evs2) = file_events evs1 ++ file_events evs2.
Proof. apply List.filter_app. Qed.

Lemma union_insert_same (k v : str) (m : gmap str str) :
  <[k := v]> m ∪ m = <[k := v]> m.
Proof. rewrite <- insert_union_l, map_union_idemp. reflexivity. Qed.

Lemma wps_resolved `{H : Host} (workspace_root : option str)
    (Q : str -> state -> Prop) σ :
  (forall d, resolved workspace_root d -> Q d σ) ->
  wps (match workspace_root with
       | Some (c :: r) => mret (c :: r)
       | _ => os_getcwd
       end) Q σ.
Proof.
  intros HQ. unfold wps, resolved in *.
  destruct workspace_root as [[|c r]|]; [| apply wp_ret, HQ; reflexivity |].
  all: unfold wp, os_getcwd; destruct (host_getcwd (world σ)) eqn:E; cbn;
    [exact I | apply HQ; eauto].
Qed.

Lemma wps_announce_info `{H : Host} ctx cmd (Q : unit -> state -> Prop) σ :
  (forall evs,
     agent_runs evs = [] -> file_events evs = [] ->
     Q tt (State (world σ) (environ σ) (log σ ++ evs))) ->
  wps (announce ctx cmd) Q σ.
Proof.
  intros HQ. destruct ctx.
  - unfold wps. apply wp_emit. apply HQ; reflexivity.
  - apply wps_ret. specialize (HQ [] eq_refl eq_refl).
    rewrite app_nil_r in HQ. destruct σ; exact HQ.
Qed.

Ltac wps_walk :=
  lazymatch goal with
  | |- wps (announce _ _) _ _ => apply wps_announce_info; intros ? ? ?
  | |- wps (if negb (?c =? 0)%Z then _ else _) _ _ => wps_step
  | |- wps (if ?b then _ else _) _ _ =>
      first [ match goal with E : b = _ |- _ => rewrite E end
            | destruct b eqn:? ]
  | |- wps (match ?x with _ => _ end) _ _ =>
      first [ apply wps_resolved; intros ? ? | destruct x ]
  | _ => wps_step
  end; cbv beta iota zeta; cbn [world environ log negb andb].

Lemma wps_implement_agent `{H : Host} prompt workspace_root branch
    commit_message scope dry_run timeout_sec model rules_path ctx σ :
  wps (implement prompt workspace_root branch commit_message scope dry_run
         timeout_sec model rules_path ctx)
      (fun o σ' =>
         exists root evs out err,
           log σ' = log σ ++ evs
           /\ resolved workspace_root root
           /\ agent_runs evs =
                [(_auggie_base_args
                    (strip prompt ++
                     match scope with
                     | Some (s :: r) =>
                         [0x0A%N] ++ u "Scope: limit edits to "
                         ++ join (u ", ") (s :: r)
                     | _ => []
                     end)
                    (Some root) model rules_path true,
                  Some root,
                  (if dry_run
                   then <[u "AUGMENT_CACHE_DIR" := settings_dir root]>
                          (environ σ)
                   else environ σ),
                  timeout_sec, Exited 0 out err)]
           /\ summary o = strip (decode out)
           /\ environ σ' =
                (if dry_run
                 then <[u "AUGMENT_CACHE_DIR" := settings_dir root]>
                        (environ σ)
                 else environ σ)
           /\ file_events evs =
                EvMkdir (settings_dir root)
                :: (if dry_run
                    then [EvWriteText
                            (path_child (settings_dir root)
                                        (u "settings.json"))
                            read_only_policy]
                    else [])) σ.
Proof.
  unfold implement. repeat wps_walk.
  all: eexists _, _, _, _.
  all: (split; [rewrite <- !app_assoc; reflexivity|]).
  all: (split; [eassumption|]).
  all: cbn [app summary]; rewrite ?union_insert_same.
  all: repeat first
         [ rewrite agent_runs_app | rewrite agent_runs_git
         | rewrite agent_runs_node | rewrite agent_runs_auggie_version
         | rewrite agent_runs_agent | rewrite agent_runs_mkdir
         | rewrite agent_runs_write | rewrite file_events_app
         | rewrite file_events_exec | rewrite file_events_mkdir
         | rewrite file_events_write ].
  all: repeat match goal with
              | E : agent_runs _ = [] |- _ => rewrite E
              | E : file_events _ = [] |- _ => rewrite E
              end.
  all: split_and!; reflexivity.
Qed.


(** ** The dependency check *)

Lemma preflight_eq `{H : Host} σ :
  _preflight σ =
  let env := environ σ in
  let ev1 := EvExec [u "node"; u "-v"] None env 5 in
  let ev2 := EvExec [u "auggie"; u "--version"] None env 5 in
  let quit w evs e :=
    (Raised (SystemExit 1),
     State w env (log σ ++ evs ++ [preflight_report e])) in
  match host_exec [u "node"; u "-v"] None env 5 (world σ) with
  | (SpawnFailed e, w1) => quit w1 [ev1 (SpawnFailed e)] (lib_exn e)
  | (TimedOut, w1) =>
      let (failed, w1') := host_kill [u "node"; u "-v"] w1 in
      quit w1' [ev1 TimedOut; EvKill [u "node"; u "-v"] failed]
           match failed with
           | Some msg => OSError msg
           | None => TimeoutError
           end
  | (Exited code out err, w1) =>
      let r1 := Exited code out err in
      if (code =? 0)%Z && nonempty (strip (decode out)) then
        match py_int (hd [] (split 0x2E%N
                               (lstrip (u "v") (strip (decode out))))) with
        | inl msg => quit w1 [ev1 r1] (ValueError msg)
        | inr major =>
            if (18 <=? major)%Z then
              match host_exec [u "auggie"; u "--version"] None env 5 w1 with
              | (SpawnFailed e, w2) =>
                  quit w2 [ev1 r1; ev2 (SpawnFailed e)] (lib_exn e)
              | (TimedOut, w2) =>
                  let (failed, w2') :=
                    host_kill [u "auggie"; u "--version"] w2 in
                  quit w2' [ev1 r1; ev2 TimedOut;
                            EvKill [u "auggie"; u "--version"] failed]
                       match failed with
                       | Some msg => OSError msg
                       | None => TimeoutError
                       end
              | (Exited code2 out2 err2, w2) =>
                  if (code2 =? 0)%Z
                  then (Ok tt,
                        State w2 env
                          (log σ ++ [ev1 r1; ev2 (Exited code2 out2 err2)]))
                  else quit w2 [ev1 r1; ev2 (Exited code2 out2 err2)]
                            (AssertionError [])
              end
            else quit w1 [ev1 r1]
                      (AssertionError (u "Node 18+ required, found v"
                                       ++ strip (decode out)))
        end
      else quit w1 [ev1 r1] (AssertionError [])
  end.
Proof.
  cbv zeta. unfold _preflight, try_except, mbind, prog_bind, preflight_report.
  rewrite run_eq.
  destruct (host_exec [u "node"; u "-v"] None (environ σ) 5 (world σ))
    as [[[msg|msg]|code out err|] w1];
    cbn [fst snd world environ log is_Exception lib_exn].
  1, 2: unfold sys_exit, raise, emit; cbn; rewrite <- ?app_assoc; reflexivity.
  2: { destruct (host_kill _ w1) as [[msg|] w1']; cbn;
       rewrite <- ?app_assoc; reflexivity. }
  destruct ((code =? 0)%Z && nonempty (strip (decode out))); cbn -[_run];
    [|rewrite <- ?app_assoc; reflexivity].
  unfold int.
  destruct (py_int _) as [msg|major]; cbn -[_run];
    [rewrite <- ?app_assoc; reflexivity|].
  destruct (18 <=? major)%Z; cbn -[_run];
    [|rewrite <- ?app_assoc; reflexivity].
  rewrite run_eq. cbn [world environ log].
  destruct (host_exec [u "auggie"; u "--version"] None (environ σ) 5 w1)
    as [[[msg|msg]|code2 out2 err2|] w2]; cbn;
    try (rewrite <- ?app_assoc; reflexivity).
  - destruct (code2 =? 0)%Z; cbn; rewrite <- ?app_assoc; reflexivity.
  - destruct (host_kill _ w2) as [[msg|] w2']; cbn;
      rewrite <- ?app_assoc; reflexivity.
Qed.


(** [_preflight] is its checks under its handler. *)
Lemma preflight_guards_checks `{H : Host} σ :
  _preflight σ
  = try_except preflight_checks
      (fun e => emit (preflight_report e);; sys_exit 1) σ.
Proof. reflexivity. Qed.

(** The checks print nothing, and what they raise is an [Exception]. *)
Lemma preflight_checks_quiet `{H : Host} σ :
  wp preflight_checks
     (fun r σ' =>
        (forall e, r = Raised e -> is_Exception e = true)
        /\ exists evs, log σ' = log σ ++ evs /\ stderr_lines evs = []) σ.
Proof.
  unfold preflight_checks. repeat wp_step.
  all: split;
    [ intros ? [= <-];
      repeat match goal with
             | e : lib_error |- _ => destruct e
             | f : option str |- _ => destruct f
             end; reflexivity
    | eexists; split; [log_shape; reflexivity|reflexivity] ].
Qed.


Lemma ask_question_timeouts `{H : Host} question workspace_root model
    rules_path timeout_sec ctx :
  traces (ask_question question workspace_root model rules_path timeout_sec
            ctx)
         (Forall (timeout_rule timeout_sec)).
Proof.
  unfold ask_question. all_events; try exact I; try reflexivity.
  all: unfold timeout_rule; rewrite launch_phase_agent; reflexivity.
Qed.

Lemma implement_agent_Ok `{H : Host} prompt workspace_root branch
    commit_message scope dry_run timeout_sec model rules_path ctx σ o :
  (implement prompt workspace_root branch commit_message scope dry_run
     timeout_sec model rules_path ctx σ).1 = Ok o ->
  let σ' := (implement prompt workspace_root branch commit_message scope
               dry_run timeout_sec model rules_path ctx σ).2 in
  let env := if dry_run
             then fun root => <[u "AUGMENT_CACHE_DIR" := settings_dir root]>
                                (environ σ)
             else fun _ => environ σ in
  exists root out err,
    resolved workspace_root root
    /\ agent_runs (events_since σ σ') =
         [(_auggie_base_args
             (strip prompt ++
              match scope with
              | Some (s :: r) =>
                  [0x0A%N] ++ u "Scope: limit edits to "
                  ++ join (u ", ") (s :: r)
              | _ => []
              end)
             (Some root) model rules_path true,
           Some root, env root, timeout_sec, Exited 0 out err)]
    /\ summary o = strip (decode out)
    /\ environ σ' = env root
    /\ file_events (events_since σ σ') =
         EvMkdir (settings_dir root)
         :: (if dry_run
             then [EvWriteText
                     (path_child (settings_dir root) (u "settings.json"))
                     read_only_policy]
             else []).
Proof.
  destruct (implement _ _ _ _ _ _ _ _ _ _ σ) as [r σ'] eqn:E. cbn [fst snd].
  intros ->.
  destruct (wps_elim _ _ _ _ _ (wps_implement_agent _ _ _ _ _ _ _ _ _ _ _) E)
    as (root & evs & out & err & Hlog & Hroot & Hagent & Hsum & Henv & Hfiles).
  exists root, out, err. unfold events_since.
  rewrite Hlog, drop_app_length.
  destruct dry_run; split_and!; assumption.
Qed.

Lemma last_snoc_agent i w m r q :
  last (_auggie_base_args i w m r q) = Some i.
Proof. unfold _auggie_base_args. apply last_snoc. Qed.

(** ** What the client is told *)

Lemma announced_app ctx e1 e2 :
  announced ctx e1 -> announced ctx e2 -> announced ctx (e1 ++ e2).
Proof.
  unfold announced, info_lines. intros H1 H2.
  rewrite omap_app, agent_runs_app, map_app, H1, H2. destruct ctx; reflexivity.
Qed.

Lemma announced_quiet ctx evs : Forall unannounced evs -> announced ctx evs.
Proof.
  unfold announced, info_lines, agent_runs.
  induction 1 as [|ev evs Hev _ IH]; [destruct ctx; reflexivity|].
  destruct ev as [cmd ? ? ? ?| | | | |]; cbn in *; try contradiction;
    try exact IH.
  rewrite bool_decide_eq_false_2 by exact Hev. exact IH.
Qed.

Lemma announced_skip `{H : Host} {A B : Type} ctx (m : prog A)
    (f : A -> prog B) :
  traces m (Forall unannounced) -> (forall a, traces (f a) (announced ctx)) ->
  traces (m ≫= f) (announced ctx).
Proof.
  intros Hm Hf. eapply traces_bind; [exact Hm | exact Hf | |].
  - apply announced_quiet.
  - intros e1 e2 H1 H2. apply announced_app; [apply announced_quiet|]; auto.
Qed.

Lemma announced_agent `{H : Host} {B : Type} ctx cmd cwd t
    (k : Z * str * str -> prog B) :
  launch_phase cmd = Some 3%nat ->
  (forall a, traces (k a) (Forall unannounced)) ->
  traces (announce ctx cmd ≫= fun _ => _run cmd cwd t ≫= k) (announced ctx).
Proof.
  intros Hcmd Hk.
  assert (Hrun : traces (_run cmd cwd t ≫= k)
            (fun evs => exists cwd' env t' r rest,
               evs = EvExec cmd cwd' env t' r :: rest
               /\ Forall unannounced rest)).
  { eapply (traces_bind _ _
              (fun evs => exists env r rest,
                 evs = EvExec cmd cwd env t r :: rest
                 /\ Forall unannounced rest)).
    - apply traces_run; intros; eexists _, _, _; (split; [reflexivity|]);
        repeat constructor.
    - exact Hk.
    - intros e1 (env & r & rest & -> & Hrest). eauto 10.
    - intros e1 e2 (env & r & rest & -> & Hrest) H2.
      eexists _, _, _, _, _. split; [reflexivity|]. apply Forall_app. auto. }
  assert (Hone : forall cwd' env t' r rest,
            Forall unannounced rest ->
            info_lines (EvExec cmd cwd' env t' r :: rest) = []
            /\ map (fun run => running_line run.1.1.1.1)
                   (agent_runs (EvExec cmd cwd' env t' r :: rest))
               = [running_line cmd]).
  { intros cwd' env t' r rest Hrest.
    pose proof (announced_quiet true rest Hrest) as Ht.
    pose proof (announced_quiet false rest Hrest) as Hf.
    unfold announced in Ht, Hf. unfold agent_runs in *.
    cbn [omap list_omap info_lines]. fold (info_lines rest).
    rewrite bool_decide_eq_true_2 by exact Hcmd.
    split; [exact Hf|]. cbn [map]. rewrite <- Ht, Hf. reflexivity. }
  intros σ. unfold wp. destruct ctx.
  - change ((announce true cmd ≫= fun _ => _run cmd cwd t ≫= k) σ)
      with ((_run cmd cwd t ≫= k)
              (State (world σ) (environ σ)
                     (log σ ++ [EvInfo (running_line cmd)]))).
    destruct (Hrun (State (world σ) (environ σ)
                          (log σ ++ [EvInfo (running_line cmd)])))
      as (evs & Hlog & cwd' & env & t' & r & rest & -> & Hrest).
    destruct (Hone cwd' env t' r rest Hrest) as [Hi Ha].
    exists (EvInfo (running_line cmd) :: EvExec cmd cwd' env t' r :: rest).
    split; [rewrite Hlog; cbn [log]; rewrite <- app_assoc; reflexivity|].
    unfold announced.
    change (info_lines (EvInfo (running_line cmd)
                        :: EvExec cmd cwd' env t' r :: rest))
      with (running_line cmd :: info_lines (EvExec cmd cwd' env t' r :: rest)).
    change (agent_runs (EvInfo (running_line cmd)
                        :: EvExec cmd cwd' env t' r :: rest))
      with (agent_runs (EvExec cmd cwd' env t' r :: rest)).
    rewrite Hi, Ha. reflexivity.
  - change ((announce false cmd ≫= fun _ => _run cmd cwd t ≫= k) σ)
      with ((_run cmd cwd t ≫= k) σ).
    destruct (Hrun σ)
      as (evs & Hlog & cwd' & env & t' & r & rest & -> & Hrest).
    destruct (Hone cwd' env t' r rest Hrest) as [Hi Ha].
    eexists. split; [exact Hlog|]. unfold announced. exact Hi.
Qed.

Ltac unannounced_steps :=
  all_events;
  solve [ exact I | discriminate | apply launch_phase_git ].

Lemma ask_question_announced `{H : Host} question workspace_root model
    rules_path timeout_sec ctx :
  traces (ask_question question workspace_root model rules_path timeout_sec
            ctx) (announced ctx).
Proof.
  unfold ask_question.
  apply announced_skip; [unannounced_steps|intros _].
  apply announced_skip; [unannounced_steps|intros t0].
  apply announced_agent; [apply launch_phase_agent|].
  intros [[code out] err]. unannounced_steps.
Qed.

Lemma implement_announced `{H : Host} prompt workspace_root branch
    commit_message scope dry_run timeout_sec model rules_path ctx :
  traces (implement prompt workspace_root branch commit_message scope dry_run
            timeout_sec model rules_path ctx) (announced ctx).
Proof.
  unfold implement.
  do 7 (apply announced_skip; [unannounced_steps|intros ?]).
  apply announced_agent; [apply launch_phase_agent|].
  intros [[code out] err]. unannounced_steps.
Qed.

(** ** What [implement] does to [os.environ], whatever its result *)

Lemma quiet_agent_runs evs : Forall unannounced evs -> agent_runs evs = [].
Proof.
  intros Hq. pose proof (announced_quiet true evs Hq) as Ht.
  pose proof (announced_quiet false evs Hq) as Hf. unfold announced in *.
  rewrite Hf in Ht. symmetry in Ht. apply map_eq_nil in Ht. exact Ht.
Qed.

(** A step that neither assigns [os.environ] nor starts the agent, after a
    run from [σ0] that did neither. *)
Lemma calm_wp `{H : Host} {A : Type} (m : prog A)
    (Q : result A -> state -> Prop) σ0 σ evs0 :
  steady m -> traces m (Forall unannounced) ->
  environ σ = environ σ0 -> log σ = log σ0 ++ evs0 ->
  agent_runs evs0 = [] ->
  (forall r σ' evs,
     environ σ' = environ σ0 -> log σ' = log σ0 ++ evs ->
     agent_runs evs = [] -> Q r σ') ->
  wp m Q σ.
Proof.
  intros Hs Ht He Hl Ha HQ. destruct (Hs σ) as (He' & _).
  destruct (Ht σ) as (evs & Hl' & Hq). unfold wp.
  apply (HQ _ _ (evs0 ++ evs)).
  - congruence.
  - rewrite Hl', Hl, app_assoc. reflexivity.
  - rewrite agent_runs_app, Ha, (quiet_agent_runs _ Hq). reflexivity.
Qed.

(** What a step that does not assign [os.environ] leaves. *)
Lemma steady_wp `{H : Host} {A : Type} (m : prog A)
    (Q : result A -> state -> Prop) σ :
  steady m ->
  (forall r σ' evs,
     environ σ' = environ σ -> log σ' = log σ ++ evs -> Q r σ') ->
  wp m Q σ.
Proof.
  intros Hm HQ. destruct (Hm σ) as (He & evs & Hl & _). unfold wp. eauto.
Qed.

(** The agent is started whatever follows, once its announcement is
    reached. *)
Lemma agent_is_started `{H : Host} {B : Type} ctx cmd cwd t
    (k : Z * str * str -> prog B) :
  launch_phase cmd = Some 3%nat ->
  (forall a, traces (k a) (Forall (fun _ => True))) ->
  traces (announce ctx cmd ≫= fun _ => _run cmd cwd t ≫= k)
         (fun evs => agent_runs evs <> []).
Proof.
  intros Hcmd Hk.
  assert (Hone : forall cwd' env t' r rest,
            agent_runs (EvExec cmd cwd' env t' r :: rest) <> []).
  { intros. unfold agent_runs. cbn [omap list_omap].
    rewrite bool_decide_eq_true_2 by exact Hcmd. discriminate. }
  assert (Hrun : traces (_run cmd cwd t ≫= k)
                        (fun evs => agent_runs evs <> [])).
  { eapply (traces_bind _ _
              (fun evs => exists env r rest,
                 evs = EvExec cmd cwd env t r :: rest)).
    - apply traces_run; intros; eexists _, _, _; reflexivity.
    - exact Hk.
    - intros e1 (env & r & rest & ->). apply Hone.
    - intros e1 e2 (env & r & rest & ->) _. apply Hone. }
  intros σ. unfold wp. destruct ctx.
  - change ((announce true cmd ≫= fun _ => _run cmd cwd t ≫= k) σ)
      with ((_run cmd cwd t ≫= k)
              (State (world σ) (environ σ)
                     (log σ ++ [EvInfo (running_line cmd)]))).
    destruct (Hrun (State (world σ) (environ σ)
                          (log σ ++ [EvInfo (running_line cmd)])))
      as (evs & Hlog & Hevs).
    exists (EvInfo (running_line cmd) :: evs).
    split; [rewrite Hlog; cbn [log]; rewrite <- app_assoc; reflexivity|].
    exact Hevs.
  - change ((announce false cmd ≫= fun _ => _run cmd cwd t ≫= k) σ)
      with ((_run cmd cwd t ≫= k) σ).
    exact (Hrun σ).
Qed.

Lemma started_wp `{H : Host} {A : Type} (m : prog A)
    (Q : result A -> state -> Prop) σ :
  steady m -> traces m (fun evs => agent_runs evs <> []) ->
  (forall r σ' evs,
     environ σ' = environ σ -> log σ' = log σ ++ evs ->
     agent_runs evs <> [] -> Q r σ') ->
  wp m Q σ.
Proof.
  intros Hs Ht HQ. destruct (Hs σ) as (He & _).
  destruct (Ht σ) as (evs & Hl & Ha). unfold wp. eauto.
Qed.

Lemma implement_environ_exact `{H : Host} prompt workspace_root branch
    commit_message scope dry_run timeout_sec model rules_path ctx σ :
  wp (implement prompt workspace_root branch commit_message scope dry_run
        timeout_sec model rules_path ctx)
     (fun _ σ' =>
        exists evs,
          log σ' = log σ ++ evs
          /\ if dry_run && nonempty (agent_runs evs)
             then exists root,
                    resolved workspace_root root
                    /\ environ σ'
                       = <[u "AUGMENT_CACHE_DIR" := settings_dir root]>
                           (environ σ)
             else environ σ' = environ σ) σ.
Proof.
  assert (Hstop : forall (σ' : state) evs,
            environ σ' = environ σ -> log σ' = log σ ++ evs ->
            agent_runs evs = [] ->
            exists evs,
              log σ' = log σ ++ evs
              /\ if dry_run && nonempty (agent_runs evs)
                 then exists root,
                        resolved workspace_root root
                        /\ environ σ'
                           = <[u "AUGMENT_CACHE_DIR" := settings_dir root]>
                               (environ σ)
                 else environ σ' = environ σ).
  { intros σ' evs He Hl Ha. exists evs. split; [exact Hl|].
    rewrite Ha, andb_false_r. exact He. }
  unfold implement.
  apply wp_bind, (calm_wp _ _ σ σ []);
    [steady_steps | unannounced_steps | reflexivity
    | rewrite app_nil_r; reflexivity | reflexivity |].
  intros [[]|e] σ1 ev1 E1 L1 A1; [|eapply Hstop; eassumption].
  apply wp_bind.
  apply (wp_mono _ (fun r σ2 =>
           σ2 = σ1 /\ match r with
                      | Ok root => resolved workspace_root root
                      | Raised _ => True
                      end)).
  { unfold wp, resolved.
    destruct workspace_root as [[|c r]|]; cbn; auto.
    all: unfold os_getcwd; destruct (host_getcwd (world σ1)) eqn:E; cbn;
      eauto. }
  intros [root|e] σ2 [-> Hroot]; [|eapply Hstop; eassumption].
  apply wp_bind, (calm_wp _ _ σ σ1 ev1);
    [steady_steps | unannounced_steps | assumption..|].
  intros [t0|e] σ3 ev3 E3 L3 A3; [|eapply Hstop; eassumption].
  apply wp_bind, (calm_wp _ _ σ σ3 ev3);
    [steady_steps | unannounced_steps | assumption..|].
  intros [[]|e] σ4 ev4 E4 L4 A4; [|eapply Hstop; eassumption].
  apply wp_bind, (calm_wp _ _ σ σ4 ev4);
    [steady_steps | unannounced_steps | assumption..|].
  intros [[]|e] σ5 ev5 E5 L5 A5; [|eapply Hstop; eassumption].
  apply wp_bind, wp_get_environ.
  destruct dry_run.
  - apply wp_bind, wp_bind, (calm_wp _ _ σ σ5 ev5);
      [steady_steps | unannounced_steps | assumption..|].
    intros [p|e] σ6 ev6 E6 L6 A6; [|eapply Hstop; eassumption].
    apply wp_bind, wp_get_environ, wp_set_environ.
    apply started_wp;
      [ steady_steps
      | apply agent_is_started;
        [ apply launch_phase_agent
        | intros [[code out] err]; all_events; exact I ]
      | ].
    intros r σ7 evs E7 L7 A7. cbn [environ log] in E7, L7.
    exists (ev6 ++ evs). split; [rewrite L7, L6, app_assoc; reflexivity|].
    rewrite agent_runs_app, A6. cbn [app andb].
    destruct (agent_runs evs); [contradiction|]. cbn [nonempty].
    exists root. split; [exact Hroot|].
    rewrite E7, E5, E6, union_insert_same. reflexivity.
  - apply wp_bind, wp_ret.
    apply steady_wp; [steady_steps|].
    intros r σ6 evs E6 L6. exists (ev5 ++ evs).
    split; [rewrite L6, L5, app_assoc; reflexivity|].
    cbn [andb]. congruence.
Qed.

(** * More of the two operations

    ** The processes of a call *)
(** X1. Whatever its result, [ask_question] starts its processes in the
    order of the source, each at most once and no other: the runtime version
    query, the agent version query, the agent.  It never starts the
    version-control program and never changes the file system. *)
Theorem ask_question_processes `{H : Host} question workspace_root model
    rules_path timeout_sec ctx σ :
  let evs :=
    events_since σ
      (ask_question question workspace_root model rules_path timeout_sec
         ctx σ).2 in
  in_order 0 4 (launches evs) /\ git_calls evs = [] /\ file_events evs = [].
Proof.
  intros evs. split.
  - exact (traces_elim _ _ σ (ask_question_in_order _ _ _ _ _ _)).
  - apply untouched_tree.
    exact (traces_elim _ _ σ (ask_question_untouched _ _ _ _ _ _)).
Qed.


(** X2. Whatever its result, [implement] starts its processes in the order
    of the source, each at most once and no other: the two version queries,
    the branch switch, the agent, and the status, diff, add, commit and
    rev-parse steps of version control.  It writes a file only in a dry
    run. *)
Theorem implement_processes `{H : Host} prompt workspace_root branch
    commit_message scope dry_run timeout_sec model rules_path ctx σ :
  let evs :=
    events_since σ
      (implement prompt workspace_root branch commit_message scope dry_run
         timeout_sec model rules_path ctx σ).2 in
  in_order 0 9 (launches evs)
  /\ Forall (fun ev => match ev with
                       | EvWriteText _ _ => dry_run = true
                       | _ => True
                       end) evs.
Proof.
  intros evs. split.
  - exact (traces_elim _ _ σ (implement_in_order _ _ _ _ _ _ _ _ _ _)).
  - exact (traces_elim _ _ σ (implement_writes _ _ _ _ _ _ _ _ _ _)).
Qed.

(** X3. Every process of both operations gets the timeout the source gives
    it: five seconds for the two version queries, the caller's
    [timeout_sec] for the agent, sixty seconds for every version-control
    step. *)
Theorem process_timeouts `{H : Host} σ timeout_sec :
  (forall question workspace_root model rules_path ctx,
     Forall (timeout_rule timeout_sec)
       (events_since σ
          (ask_question question workspace_root model rules_path timeout_sec
             ctx σ).2))
  /\ (forall prompt workspace_root branch commit_message scope dry_run model
              rules_path ctx,
        Forall (timeout_rule timeout_sec)
          (events_since σ
             (implement prompt workspace_root branch commit_message scope
                dry_run timeout_sec model rules_path ctx σ).2)).
Proof.
  split; intros.
  - exact (traces_elim _ _ σ (ask_question_timeouts _ _ _ _ _ _)).
  - exact (traces_elim _ _ σ (implement_timeouts _ _ _ _ _ _ _ _ _ _)).
Qed.

(** ** The environment *)

(** X4. A state is what one call reads and writes, with no other call of
    the server running between its steps.  Run alone in that sense, and
    whatever their result, [ask_question] and [implement] without [dry_run]
    leave [os.environ] as they found it, and every process they start
    receives exactly that environment. *)
Theorem environment_is_passed_on `{H : Host} σ :
  (forall question workspace_root model rules_path timeout_sec ctx,
     let σ' := (ask_question question workspace_root model rules_path
                  timeout_sec ctx σ).2 in
     environ σ' = environ σ
     /\ Forall (launched_with (environ σ)) (events_since σ σ'))
  /\ (forall prompt workspace_root branch commit_message scope timeout_sec
              model rules_path ctx,
        let σ' := (implement prompt workspace_root branch commit_message
                     scope false timeout_sec model rules_path ctx σ).2 in
        environ σ' = environ σ
        /\ Forall (launched_with (environ σ)) (events_since σ σ')).
Proof.
  split; intros.
  - exact (steady_elim _ σ (ask_question_steady _ _ _ _ _ _)).
  - exact (steady_elim _ σ (implement_steady _ _ _ _ _ _ _ _ _)).
Qed.

(** X5. What a call to [implement] that runs alone has done to
    [os.environ] when it ends, whatever its result: in a dry run that got as
    far as starting the agent, [AUGMENT_CACHE_DIR] is set to the directory
    [.augment/.mcp-temp] under the workspace root and stays set, also when
    the call ends in an error afterwards; in every other case [os.environ]
    is as it was. *)
Theorem implement_environment `{H : Host} prompt workspace_root branch
    commit_message scope dry_run timeout_sec model rules_path ctx σ :
  let σ' := (implement prompt workspace_root branch commit_message scope
               dry_run timeout_sec model rules_path ctx σ).2 in
  if dry_run && nonempty (agent_runs (events_since σ σ'))
  then exists root,
         resolved workspace_root root
         /\ environ σ'
            = <[u "AUGMENT_CACHE_DIR" := settings_dir root]> (environ σ)
  else environ σ' = environ σ.
Proof.
  intros σ'. subst σ'.
  destruct (implement_environ_exact prompt workspace_root branch
              commit_message scope dry_run timeout_sec model rules_path ctx σ)
    as (evs & Hlog & Henv).
  unfold events_since. rewrite Hlog, drop_app_length. exact Henv.
Qed.

(** ** A call to [implement] that returns *)

(** X6. A call to [implement] that returns has run the agent exactly once:
    quietly, on the stripped prompt followed by the scope hint, with the
    workspace root both as [--workspace-root] and as working directory,
    under the caller's timeout; the agent exited with code 0 and the summary
    is its stripped output. *)
Theorem implement_agent_run `{H : Host} prompt workspace_root branch
    commit_message scope dry_run timeout_sec model rules_path ctx σ o :
  (implement prompt workspace_root branch commit_message scope dry_run
     timeout_sec model rules_path ctx σ).1 = Ok o ->
  exists root env out err,
    resolved workspace_root root
    /\ agent_runs
         (events_since σ
            (implement prompt workspace_root branch commit_message scope
               dry_run timeout_sec model rules_path ctx σ).2)
       = [(_auggie_base_args
             (strip prompt ++
              match scope with
              | Some (s :: r) =>
                  [0x0A%N] ++ u "Scope: limit edits to "
                  ++ join (u ", ") (s :: r)
              | _ => []
              end)
             (Some root) model rules_path true,
           Some root, env, timeout_sec, Exited 0 out err)]
    /\ summary o = strip (decode out).
Proof.
  intros E.
  destruct (implement_agent_Ok _ _ _ _ _ _ _ _ _ _ _ _ E)
    as (root & out & err & Hroot & Hagent & Hsum & _).
  exists root. eexists. exists out, err. eauto.
Qed.

(** X7. A call to [implement] that returns has created the directory
    [.augment/.mcp-temp] under the workspace root, dry run or not.  In a dry
    run it has then written [settings.json] there, denying the four tools
    that write files or start processes; otherwise it has changed nothing
    else in the file system itself. *)
Theorem implement_file_changes `{H : Host} prompt workspace_root branch
    commit_message scope dry_run timeout_sec model rules_path ctx σ o :
  (implement prompt workspace_root branch commit_message scope dry_run
     timeout_sec model rules_path ctx σ).1 = Ok o ->
  exists root,
    resolved workspace_root root
    /\ file_events
         (events_since σ
            (implement prompt workspace_root branch commit_message scope
               dry_run timeout_sec model rules_path ctx σ).2)
       = EvMkdir (settings_dir root)
         :: (if dry_run
             then [EvWriteText
                     (path_child (settings_dir root) (u "settings.json"))
                     (JDict [(u "tool-permissions",
                              JList [deny "save-file";
                                     deny "str-replace-editor";
                                     deny "remove-files";
                                     deny "launch-process"])])]
             else []).
Proof.
  intros E.
  destruct (implement_agent_Ok _ _ _ _ _ _ _ _ _ _ _ _ E)
    as (root & out & err & Hroot & _ & _ & _ & Hfiles).
  exists root. split; [exact Hroot | exact Hfiles].
Qed.

(** X8. In a dry run that returns and that ran alone, the one agent process
    was started with [AUGMENT_CACHE_DIR] set to the directory of the
    read-only settings and the rest of [os.environ] as it was, and
    [os.environ] itself carries the variable when the call is over. *)
Theorem dry_run_restricts_agent `{H : Host} prompt workspace_root branch
    commit_message scope timeout_sec model rules_path ctx σ o :
  (implement prompt workspace_root branch commit_message scope true
     timeout_sec model rules_path ctx σ).1 = Ok o ->
  let σ' := (implement prompt workspace_root branch commit_message scope true
               timeout_sec model rules_path ctx σ).2 in
  exists root,
    resolved workspace_root root
    /\ map (fun run => run.1.1.2) (agent_runs (events_since σ σ'))
       = [<[u "AUGMENT_CACHE_DIR" := settings_dir root]> (environ σ)]
    /\ environ σ'
       = <[u "AUGMENT_CACHE_DIR" := settings_dir root]> (environ σ).
Proof.
  intros E.
  destruct (implement_agent_Ok _ _ _ _ _ _ _ _ _ _ _ _ E)
    as (root & out & err & Hroot & Hagent & _ & Henv & _).
  exists root. split_and!; [exact Hroot | | exact Henv].
  cbv zeta in Hagent. rewrite Hagent. reflexivity.
Qed.

(** X9. A dry run that returned leaves [AUGMENT_CACHE_DIR] pointing at its
    read-only settings.  From any later state in which the variable still
    has that value, a call of [ask_question], or of [implement] without
    [dry_run], that runs alone hands the variable to every process it
    starts, the agent included, and leaves it set. *)
Theorem dry_run_settings_persist `{H : Host} prompt workspace_root branch
    commit_message scope timeout_sec model rules_path ctx σ o :
  (implement prompt workspace_root branch commit_message scope true
     timeout_sec model rules_path ctx σ).1 = Ok o ->
  let σ1 := (implement prompt workspace_root branch commit_message scope true
               timeout_sec model rules_path ctx σ).2 in
  exists root,
    resolved workspace_root root
    /\ environ σ1 !! u "AUGMENT_CACHE_DIR" = Some (settings_dir root)
    /\ forall σ2,
         environ σ2 !! u "AUGMENT_CACHE_DIR" = Some (settings_dir root) ->
         (forall question workspace_root' model' rules_path' timeout_sec'
                 ctx',
            let σ3 := (ask_question question workspace_root' model'
                         rules_path' timeout_sec' ctx' σ2).2 in
            Forall (restricted root) (events_since σ2 σ3)
            /\ environ σ3 !! u "AUGMENT_CACHE_DIR"
               = Some (settings_dir root))
         /\ (forall prompt' workspace_root' branch' commit_message' scope'
                    timeout_sec' model' rules_path' ctx',
               let σ3 := (implement prompt' workspace_root' branch'
                            commit_message' scope' false timeout_sec' model'
                            rules_path' ctx' σ2).2 in
               Forall (restricted root) (events_since σ2 σ3)
               /\ environ σ3 !! u "AUGMENT_CACHE_DIR"
                  = Some (settings_dir root)).
Proof.
  intros E σ1.
  destruct (implement_agent_Ok _ _ _ _ _ _ _ _ _ _ _ _ E)
    as (root & out & err & Hroot & _ & _ & Henv & _).
  fold σ1 in Henv. cbv beta iota in Henv.
  exists root. split_and!; [exact Hroot | |].
  { rewrite Henv. apply lookup_insert_eq. }
  intros σ2 Hvar.
  assert (Hpass : forall (σ3 : state),
            environ σ3 = environ σ2
            /\ Forall (launched_with (environ σ2)) (events_since σ2 σ3) ->
            Forall (restricted root) (events_since σ2 σ3)
            /\ environ σ3 !! u "AUGMENT_CACHE_DIR"
               = Some (settings_dir root)).
  { intros σ3 [He Hall]. split; [|rewrite He; exact Hvar].
    eapply Forall_impl; [exact Hall|].
    intros [? ? env ? ?| | | | |] Hev; try exact I. cbn in *. subst env.
    exact Hvar. }
  split; intros; apply Hpass.
  - exact (steady_elim _ σ2 (ask_question_steady _ _ _ _ _ _)).
  - exact (steady_elim _ σ2 (implement_steady _ _ _ _ _ _ _ _ _)).
Qed.

(** ** Failures *)



(** ** The dependency check *)

(** X12. [_preflight] returns normally exactly when [node -v] exits with code 0
    and an output that names a major version of at least 18, and
    [auggie --version], started after it, exits with code 0.  What the second
    query prints does not matter. *)
Theorem preflight_passes_iff `{H : Host} σ :
  (_preflight σ).1 = Ok tt <->
  exists out err w1 out2 err2 w2,
    host_exec [u "node"; u "-v"] None (environ σ) 5 (world σ)
    = (Exited 0 out err, w1)
    /\ node_ok (decode out)
    /\ host_exec [u "auggie"; u "--version"] None (environ σ) 5 w1
       = (Exited 0 out2 err2, w2).
Proof.
  rewrite preflight_eq. cbv zeta. unfold node_ok. split.
  - destruct (host_exec [u "node"; u "-v"] _ _ _ _)
      as [[msg|code out err|] w1]; try discriminate.
    2: { destruct (host_kill _ w1); discriminate. }
    destruct (Z.eqb_spec code 0) as [->|]; [|discriminate].
    cbn [andb]. destruct (nonempty (strip (decode out))) eqn:Hout;
      [|discriminate].
    destruct (py_int _) as [msg|major] eqn:Hint; [discriminate|].
    destruct (Z.leb_spec 18 major); [|discriminate].
    destruct (host_exec [u "auggie"; u "--version"] _ _ _ _)
      as [[msg|code2 out2 err2|] w2] eqn:E2; try discriminate.
    2: { destruct (host_kill _ w2); discriminate. }
    destruct (Z.eqb_spec code2 0) as [->|]; [|discriminate].
    intros _. exists out, err, w1, out2, err2, w2. eauto 10.
  - intros (out & err & w1 & out2 & err2 & w2 & -> & (Hout & major & Hint & Hge)
            & E2).
    cbn [Z.eqb andb]. rewrite Hout, Hint.
    destruct (Z.leb_spec 18 major); [|lia]. rewrite E2. reflexivity.
Qed.

(** X13. When [node -v] exits with code 0 and names a major version below 18,
    [_preflight] prints one line to stderr, the server's tag followed by
    [Node 18+ required, found v] and the stripped output as it is (its own
    leading [v] included), and exits with status 1; [auggie --version] is
    not started. *)
Theorem preflight_old_runtime `{H : Host} σ out err w1 major :
  host_exec [u "node"; u "-v"] None (environ σ) 5 (world σ)
  = (Exited 0 out err, w1) ->
  nonempty (strip (decode out)) = true ->
  py_int (hd [] (split 0x2E%N (lstrip (u "v") (strip (decode out)))))
  = inr major ->
  (major < 18)%Z ->
  _preflight σ
  = (Raised (SystemExit 1),
     State w1 (environ σ)
       (log σ ++
        [EvExec [u "node"; u "-v"] None (environ σ) 5 (Exited 0 out err);
         EvStderr (u "[Auggie MCP] Preflight failed: Node 18+ required, found v"
                   ++ strip (decode out))])).
Proof.
  intros E1 Hout Hint Hlt. rewrite preflight_eq. cbv zeta.
  rewrite E1. cbn [Z.eqb andb]. rewrite Hout, Hint.
  destruct (Z.leb_spec 18 major); [lia|]. reflexivity.
Qed.

(** X14. [_preflight] runs the checks of its [try] block.  When they return
    it returns and has printed nothing.  When they raise, it ends in
    [SystemExit(1)] after printing exactly one line to stderr, the last thing
    it does: the server's tag, [Preflight failed: ] and the text of the very
    exception the checks raised. *)
Theorem preflight_reports_once `{H : Host} σ :
  let evs := events_since σ (_preflight σ).2 in
  match (preflight_checks σ).1 with
  | Ok _ => (_preflight σ).1 = Ok tt /\ stderr_lines evs = []
  | Raised cause =>
      (_preflight σ).1 = Raised (SystemExit 1)
      /\ stderr_lines evs
         = [u "[Auggie MCP] Preflight failed: " ++ exn_str cause]
      /\ last evs
         = Some (EvStderr (u "[Auggie MCP] Preflight failed: "
                           ++ exn_str cause))
  end.
Proof.
  intros evs. subst evs. rewrite preflight_guards_checks.
  unfold try_except, events_since.
  pose proof (preflight_checks_quiet σ) as Hq. unfold wp in Hq.
  destruct (preflight_checks σ) as [[[]|cause] σ1]; cbn [fst snd] in *;
    destruct Hq as (Hexc & evs & Hlog & Hnone).
  - split; [reflexivity|]. rewrite Hlog, drop_app_length. exact Hnone.
  - rewrite (Hexc cause eq_refl).
    unfold mbind, prog_bind, emit, sys_exit, raise. cbn [fst snd log].
    rewrite Hlog, <- app_assoc, drop_app_length.
    split_and!; [reflexivity | |].
    + unfold stderr_lines in *. rewrite omap_app, Hnone. reflexivity.
    + rewrite last_snoc. reflexivity.
Qed.

(** ** The command line of the agent *)

(** X15. The command line [_auggie_base_args] builds starts with [auggie]
    and the mode flag, ends with the instruction as one argument, and holds
    two more arguments for each option that is given; an option that is
    [None] or empty adds nothing.  It is never mistaken for the version
    query of the dependency check. *)
Theorem auggie_base_args_shape instruction workspace_root model rules_path
    quiet :
  let args :=
    _auggie_base_args instruction workspace_root model rules_path quiet in
  take 2 args = [u "auggie"; if quiet then u "--quiet" else u "--print"]
  /\ last args = Some instruction
  /\ length args
     = (3 + 2 * (given workspace_root + given model + given rules_path))%nat
  /\ launch_phase args = Some 3%nat.
Proof.
  intros args. split_and!.
  - subst args.
    destruct workspace_root as [[|? ?]|], model as [[|? ?]|],
      rules_path as [[|? ?]|], quiet; reflexivity.
  - apply last_snoc_agent.
  - subst args.
    destruct workspace_root as [[|? ?]|], model as [[|? ?]|],
      rules_path as [[|? ?]|], quiet; reflexivity.
  - apply launch_phase_agent.
Qed.

(** ** What the client is told about the agent *)

(** X16. Whatever the result, what both operations tell the client through
    the context is one line for each agent process they start, so at most
    one: [Running: ] followed by the very command that is started, its words
    quoted for a shell and joined by blanks.  Without a context nothing is
    told. *)
Theorem agent_run_is_announced `{H : Host} σ ctx :
  (forall question workspace_root model rules_path timeout_sec,
     announced ctx
       (events_since σ
          (ask_question question workspace_root model rules_path timeout_sec
             ctx σ).2))
  /\ (forall prompt workspace_root branch commit_message scope dry_run
             timeout_sec model rules_path,
        announced ctx
          (events_since σ
             (implement prompt workspace_root branch commit_message scope
                dry_run timeout_sec model rules_path ctx σ).2)).
Proof.
  split; intros.
  - exact (traces_elim _ _ σ (ask_question_announced _ _ _ _ _ _)).
  - exact (traces_elim _ _ σ (implement_announced _ _ _ _ _ _ _ _ _ _)).
Qed.

(** * The claims on the scripted host *)

Import Scripted.

Lemma dry_run_never_commits_witness :
  committed previewing_outcome = false
  /\ Forall (fun call => stage_or_commit call.1 = false)
       (calls_since (start (repo_with_changes small_diff)) previewing_run.2).
Proof.
  apply (dry_run_never_commits refactor_prompt None
           (Some (u "feature/streaming")) None (Some [u "src/parser"]) 300
           None None true (start (repo_with_changes small_diff))
           previewing_outcome).
  reflexivity.
Defined.

Lemma commit_sha_iff_committed_witness :
  (commit_sha committing_outcome <> None
   <-> committed committing_outcome = true)
  /\ (committed committing_outcome = true ->
      exists out err,
        last (calls_since (start (repo_with_changes small_diff))
                committing_run.2)
        = Some ([u "rev-parse"; u "HEAD"], Exited 0 out err)
        /\ commit_sha committing_outcome = Some (strip (decode out))).
Proof.
  apply (commit_sha_iff_committed refactor_prompt None None None None false
           300 None None true (start (repo_with_changes small_diff))
           committing_outcome).
  reflexivity.
Defined.

Lemma diff_needs_changes_and_is_capped_witness :
  ([u "diff"], Exited 0 huge_diff [])
    ∈ calls_since (start (repo_with_changes huge_diff)) oversized_run.2
  /\ (200000 < len (decode huge_diff))%Z
  /\ diff oversized_outcome = [].
Proof.
  assert (Hin : ([u "diff"], Exited 0 huge_diff [])
                  ∈ calls_since (start (repo_with_changes huge_diff))
                      oversized_run.2).
  { apply (list_elem_of_lookup_2 _ 1). exact eq_refl. }
  assert (Hlen : (200000 < len (decode huge_diff))%Z) by exact eq_refl.
  split_and!; [exact Hin | exact Hlen |].
  exact (proj1 (proj2 (proj2
           (diff_needs_changes_and_is_capped refactor_prompt None None None
              None false 300 None None false
              (start (repo_with_changes huge_diff)) oversized_outcome
              eq_refl)) 0%Z huge_diff [] Hin) Hlen).
Defined.

Lemma collector_parses_status_lines_witness :
  exists out err,
    ([u "status"; u "--porcelain"], Exited 0 out err)
      ∈ calls_since (start (repo_with_changes small_diff)) committing_run.2
    /\ [u "src/a.py"; u "notes.txt"] = collect_files (decode out).
Proof.
  exact (proj1 (collector_parses_status_lines refactor_prompt None None None
                  None false 300 None None true
                  (start (repo_with_changes small_diff)) committing_outcome
                  eq_refl)).
Defined.

Lemma default_commit_message_witness :
  committed committing_outcome = true
  /\ exists out err,
       ([u "commit"; u "-m"; u "Implement: " ++ firstn 72 refactor_prompt],
        Exited 0 out err)
         ∈ calls_since (start (repo_with_changes small_diff)) committing_run.2.
Proof.
  destruct (default_commit_message refactor_prompt None None None 300 None
              None true (start (repo_with_changes small_diff))
              committing_outcome eq_refl ltac:(discriminate))
    as (Hc & Hin & _).
  exact (conj Hc Hin).
Defined.

Lemma empty_commit_message_is_omitted_witness :
  exists out err,
    ([u "commit"; u "-m"; u "Implement: " ++ firstn 72 refactor_prompt],
     Exited 0 out err)
      ∈ calls_since (start (repo_with_changes small_diff))
          blank_message_run.2.
Proof.
  exact (proj1 (proj2 (empty_commit_message_is_omitted refactor_prompt None
                         None None 300 None None false
                         (start (repo_with_changes small_diff)))
                  committing_outcome eq_refl ltac:(discriminate))).
Defined.

Lemma only_AMDR_codes_are_kept_witness :
  status_line_path (u "C  src/copied.py") = None
  /\ status_line_path (u "UU src/conflict.py") = None
  /\ exists ws code rest,
       u " M src/a.py" = ws ++ code ++ rest
       /\ Forall (fun c => isspace c = true) ws
       /\ (length code = 1 \/ length code = 2)%nat
       /\ Forall (fun c => c ∈ [0x41; 0x4D; 0x44; 0x52; 0x3F]) code
       /\ (exists s r, rest = s :: r /\ isspace s = true)
       /\ u "src/a.py" = lstrip_by isspace rest.
Proof.
  pose (status := u "C  src/copied.py" ++ [0x0A] ++ u "UU src/conflict.py"
                  ++ [0x0A] ++ u " M src/a.py" ++ [0x0A]).
  assert (Hin : forall line,
            In line [u "C  src/copied.py"; u "UU src/conflict.py";
                     u " M src/a.py"] ->
            line ∈ splitlines status).
  { intros line Hl. apply list_elem_of_In. exact Hl. }
  assert (Hother : forall c, In c [0x43; 0x55] ->
                             c ∉ [0x41; 0x4D; 0x44; 0x52; 0x3F]).
  { intros c [<-|[<-|[]]] Hc;
      repeat (apply elem_of_cons in Hc as [Hc|Hc]; [discriminate Hc|]);
      apply elem_of_nil in Hc as []. }
  split_and!.
  - refine (proj1 (proj2 (only_AMDR_codes_are_kept status
                            (u "C  src/copied.py") (Hin _ _)))
              0x43 (u "  src/copied.py") eq_refl (Hother _ _)).
    + left. reflexivity.
    + left. reflexivity.
  - refine (proj1 (proj2 (only_AMDR_codes_are_kept status
                            (u "UU src/conflict.py") (Hin _ _)))
              0x55 (u "U src/conflict.py") eq_refl (Hother _ _)).
    + right. left. reflexivity.
    + right. left. reflexivity.
  - refine (proj1 (only_AMDR_codes_are_kept status (u " M src/a.py")
                     (Hin _ _)) (u "src/a.py") _).
    + right. right. left. reflexivity.
    + reflexivity.
Defined.

Lemma ask_question_by_exit_code_witness :
  (ask_question where_is_it None None None 120 false (start rate_limited)).1
  = Raised (AgentFailure (u "rate limit exceeded"))
  /\ (ask_question where_is_it None None None 120 false (start answering)).1
     = Ok {| answer := u "In src/parser.py";
             ask_usage := {| duration_ms := 30000 |} |}.
Proof.
  split.
  - exact (proj1 (ask_question_by_exit_code where_is_it None None None 120
                    false (start rate_limited) 1000%Z (later rate_limited 0)
                    3%Z (text_lines ["partial answer"%string])
                    (text_lines ["rate limit exceeded"%string])
                    (later rate_limited 2) eq_refl eq_refl eq_refl)
             ltac:(discriminate)).
  - exact (proj2 (ask_question_by_exit_code where_is_it None None None 120
                    false (start answering) 1000%Z (later answering 0)
                    0%Z (text_lines ["In src/parser.py"%string]) []
                    (later answering 30) eq_refl eq_refl eq_refl)
             eq_refl 1030%Z (later answering 30) eq_refl).
Defined.

Lemma run_timeout_kill_unguarded_witness :
  (@_run racing [u "sleep"; u "5"] None 1 (racing_start sleeper)).1
  = Raised (OSError [])
  /\ (@_run racing [u "sleep"; u "5"] None 1 (racing_start sleeper)).1
     <> Raised TimeoutError.
Proof.
  exact (proj2 (proj2 (proj2
           (@run_timeout_kill_unguarded racing [u "sleep"; u "5"] None 1
              (racing_start sleeper) (later sleeper 1) (Some [])
              (later sleeper 1) eq_refl eq_refl))) [] eq_refl).
Defined.

Lemma preflight_failure_exits_witness :
  ask_question where_is_it None None None 120 false (start no_agent)
  = (Raised (SystemExit 1), (_preflight (start no_agent)).2)
  /\ implement refactor_prompt None None None None true 300 None None false
       (start no_agent)
     = (Raised (SystemExit 1), (_preflight (start no_agent)).2).
Proof.
  destruct (preflight_failure_exits (start no_agent) (SystemExit 1) eq_refl)
    as (_ & _ & Hask & Himpl & _).
  split; [apply Hask | apply Himpl].
Defined.

(** * More of the two operations on the scripted host *)

Import Cases.

Lemma implement_agent_run_witness :
  exists root env out err,
    resolved None root
    /\ agent_runs
         (events_since (start (repo_with_changes small_diff))
                       committing_run.2)
       = [(_auggie_base_args (strip refactor_prompt ++ []) (Some root) None
             None true,
           Some root, env, 300%Z, Exited 0 out err)]
    /\ summary committing_outcome = strip (decode out).
Proof.
  apply (implement_agent_run refactor_prompt None None None None false 300
           None None true (start (repo_with_changes small_diff))
           committing_outcome).
  reflexivity.
Defined.

Lemma implement_file_changes_witness :
  exists root,
    resolved None root
    /\ file_events
         (events_since (start (repo_with_changes small_diff))
                       previewing_run.2)
       = [EvMkdir (settings_dir root);
          EvWriteText (path_child (settings_dir root) (u "settings.json"))
            (JDict [(u "tool-permissions",
                     JList [deny "save-file"; deny "str-replace-editor";
                            deny "remove-files"; deny "launch-process"])])].
Proof.
  apply (implement_file_changes refactor_prompt None
           (Some (u "feature/streaming")) None (Some [u "src/parser"]) true
           300 None None true (start (repo_with_changes small_diff))
           previewing_outcome).
  reflexivity.
Defined.

Lemma dry_run_restricts_agent_witness :
  exists root,
    resolved None root
    /\ map (fun run => run.1.1.2)
           (agent_runs
              (events_since (start repo_without_changes) idle_preview_run.2))
       = [<[u "AUGMENT_CACHE_DIR" := settings_dir root]>
            (environ (start repo_without_changes))]
    /\ environ idle_preview_run.2
       = <[u "AUGMENT_CACHE_DIR" := settings_dir root]>
           (environ (start repo_without_changes)).
Proof.
  apply (dry_run_restricts_agent refactor_prompt None None None None 300 None None
           false (start repo_without_changes) idle_outcome).
  reflexivity.
Defined.

Lemma dry_run_settings_persist_witness :
  exists root,
    resolved None root
    /\ environ idle_preview_run.2 !! u "AUGMENT_CACHE_DIR"
       = Some (settings_dir root)
    /\ forall σ2,
         environ σ2 !! u "AUGMENT_CACHE_DIR" = Some (settings_dir root) ->
         (forall question workspace_root' model' rules_path' timeout_sec'
                 ctx',
            let σ3 := (ask_question question workspace_root' model'
                         rules_path' timeout_sec' ctx' σ2).2 in
            Forall (restricted root) (events_since σ2 σ3)
            /\ environ σ3 !! u "AUGMENT_CACHE_DIR"
               = Some (settings_dir root))
         /\ (forall prompt' workspace_root' branch' commit_message' scope'
                    timeout_sec' model' rules_path' ctx',
               let σ3 := (implement prompt' workspace_root' branch'
                            commit_message' scope' false timeout_sec' model'
                            rules_path' ctx' σ2).2 in
               Forall (restricted root) (events_since σ2 σ3)
               /\ environ σ3 !! u "AUGMENT_CACHE_DIR"
                  = Some (settings_dir root)).
Proof.
  apply (dry_run_settings_persist refactor_prompt None None None None 300
           None None false (start repo_without_changes) idle_outcome).
  reflexivity.
Defined.



Lemma preflight_old_runtime_witness :
  _preflight (start old_node)
  = (Raised (SystemExit 1),
     State (later old_node 0) (environ (start old_node))
       (log (start old_node) ++
        [EvExec [u "node"; u "-v"] None (environ (start old_node)) 5
                (Exited 0 (text_lines ["v16.20.2"%string]) []);
         EvStderr (u "[Auggie MCP] Preflight failed: Node 18+ required, found v"
                   ++ strip (decode (text_lines ["v16.20.2"%string])))])).
Proof.
  apply (preflight_old_runtime (start old_node)
           (text_lines ["v16.20.2"%string]) [] (later old_node 0) 16).
  - reflexivity.
  - reflexivity.
  - reflexivity.
  - reflexivity.
Defined.
